(** * rational.hpp: exact rational numbers over a bounded integral type.

    A shallow embedding of [rational::Ratio<T>] and of the free functions
    around it (gcd, the arithmetic and comparison operators, the rounding
    family), followed by the properties the specification states about
    them.

    Values of the template parameter [T] are modelled as mathematical
    integers constrained to the signed range of the type.  Signed overflow
    and integral division by zero are undefined behaviour in C++; the
    embedding makes both explicit as the outcome [Undefined], next to
    normal return, a thrown exception and a call of [std::terminate]. *)

From Stdlib Require Import ZArith Bool Lia Znumtheory QArith Qfield Qabs.
From Equations Require Import Equations.

Local Open Scope Z_scope.

(** ** The integral type [T] *)

(** [static_assert(std::is_integral<T>::value, ...)]: T is a signed
    two's-complement integer type of [bits] bits.  The embedding takes T to
    have at least the conversion rank of [int] (as the three typedefs
    [Ratio<std::ptrdiff_t>], [Ratio<std::int32_t>], [Ratio<std::int64_t>]
    do), so that operands are not promoted and the literals 0, 1, 2, 2000
    and 6283 convert to T unchanged; [int] has at least 16 bits. *)
Class Integral : Type := {
  bits : Z;
  bits_ge_16 : 16 <= bits
}.

Definition max_T `{Integral} : Z := 2 ^ (bits - 1) - 1.
Definition min_T `{Integral} : Z := - 2 ^ (bits - 1).

(** A value of type T. *)
Definition in_range `{Integral} (z : Z) : Prop := min_T <= z <= max_T.
Definition in_rangeb `{Integral} (z : Z) : bool := (min_T <=? z) && (z <=? max_T).

(** A value of type T whose negation is a value of type T too
    (everything but the most negative one). *)
Definition fits `{Integral} (z : Z) : Prop := - max_T <= z <= max_T.
Definition fitsb `{Integral} (z : Z) : bool := (- max_T <=? z) && (z <=? max_T).

(** ** Outcomes of a C++ evaluation *)

Inductive exception : Set :=
| DivideByZeroException
| OverflowException.

Inductive outcome (A : Type) : Type :=
| Returns (a : A)
| Throws (e : exception)
| Terminates
| Undefined.

Arguments Returns {A} a.
Arguments Throws {A} e.
Arguments Terminates {A}.
Arguments Undefined {A}.

Definition bind {A B : Type} (m : outcome A) (k : A -> outcome B) : outcome B :=
  match m with
  | Returns a => k a
  | Throws e => Throws e
  | Terminates => Terminates
  | Undefined => Undefined
  end.

(** A function declared [noexcept]: an exception that would leave it
    calls [std::terminate] instead of reaching the caller. *)
Definition noexcept {A : Type} (m : outcome A) : outcome A :=
  match m with
  | Throws _ => Terminates
  | _ => m
  end.

Notation "x <- m ;; k" := (bind m (fun x => k))
  (at level 61, m at next level, right associativity).

(** ** Built-in arithmetic of T *)

Section Arithmetic.
Context `{Integral}.

Definition checked (z : Z) : outcome Z :=
  if in_rangeb z then Returns z else Undefined.

Definition t_add (a b : Z) : outcome Z := checked (a + b).
Definition t_sub (a b : Z) : outcome Z := checked (a - b).
Definition t_mul (a b : Z) : outcome Z := checked (a * b).
Definition t_neg (a : Z) : outcome Z := checked (- a).

(** [a / b]: truncates toward zero; undefined for [b == 0] and when the
    quotient is not representable. *)
Definition t_div (a b : Z) : outcome Z :=
  if b =? 0 then Undefined else checked (Z.quot a b).

(** [a % b]: remainder of the truncating division, undefined whenever
    [a / b] is. *)
Definition t_rem (a b : Z) : outcome Z :=
  if b =? 0 then Undefined
  else if in_rangeb (Z.quot a b) then Returns (Z.rem a b) else Undefined.

End Arithmetic.

(** [std::int32_t] and [std::int64_t]. *)
#[export] Instance int32_t : Integral := {| bits := 32; bits_ge_16 := ltac:(lia) |}.
#[export] Instance int64_t : Integral := {| bits := 64; bits_ge_16 := ltac:(lia) |}.

(** ** gcd *)

(** Case analysis on a computed value that keeps the equation. *)
Definition inspect {A : Type} (x : A) : {y : A | x = y} := exist _ x eq_refl.

Section Gcd.
Context `{Integral}.

(** The loop of [gcd]:
    [while(b != 0) { a %= b; if(a == 0) return b; b %= a; } return a;] *)
Equations? gcd_loop (a b : Z) : outcome Z by wf (Z.abs_nat b) lt :=
  gcd_loop a b with Z.eq_dec b 0 => {
    | left _ => Returns a
    | right Hb with inspect (t_rem a b) => {
        | exist _ (Returns a') Ea with Z.eq_dec a' 0 => {
            | left _ => Returns b
            | right Ha with inspect (t_rem b a') => {
                | exist _ (Returns b') Eb => gcd_loop a' b'
                | exist _ (Throws e) _ => Throws e
                | exist _ Terminates _ => Terminates
                | exist _ Undefined _ => Undefined } }
        | exist _ (Throws e) _ => Throws e
        | exist _ Terminates _ => Terminates
        | exist _ Undefined _ => Undefined } }.
Proof.
  unfold t_rem in Ea, Eb.
  destruct (b =? 0); [discriminate|].
  destruct (in_rangeb (a ÷ b)); [|discriminate].
  destruct (a' =? 0); [discriminate|].
  destruct (in_rangeb (b ÷ a')); [|discriminate].
  injection Ea as <-. injection Eb as <-.
  pose proof (Z.rem_bound_abs a b Hb).
  pose proof (Z.rem_bound_abs b (Z.rem a b) Ha).
  lia.
Qed.

Definition gcd (a b : Z) : outcome Z :=
  a <- (if a <? 0 then t_neg a else Returns a) ;;
  b <- (if b <? 0 then t_neg b else Returns b) ;;
  gcd_loop a b.

End Gcd.

(** ** pow10_cap *)

Section Pow10.
Context `{Integral}.

(** [++pow10] on the [unsigned] counter, an unsigned type of
    [unsigned_bits] bits: the increment wraps around. *)
Definition unsigned_incr (unsigned_bits pow10 : Z) : Z :=
  (pow10 + 1) mod 2 ^ unsigned_bits.

(** The loop of [pow10_cap]:
    [do { ++pow10; x /= 10; } while(x > 1);] followed by [return pow10;]. *)
Equations? pow10_cap_loop (unsigned_bits pow10 x : Z) : outcome Z
  by wf (Z.abs_nat x) lt :=
  pow10_cap_loop unsigned_bits pow10 x with inspect (t_div x 10) => {
    | exist _ (Returns x') Ex with Z_gt_dec x' 1 => {
        | left _ => pow10_cap_loop unsigned_bits (unsigned_incr unsigned_bits pow10) x'
        | right _ => Returns (unsigned_incr unsigned_bits pow10) }
    | exist _ (Throws e) _ => Throws e
    | exist _ Terminates _ => Terminates
    | exist _ Undefined _ => Undefined }.
Proof.
  unfold t_div in Ex. simpl in Ex. unfold checked in Ex.
  destruct (in_rangeb (x ÷ 10)); [|discriminate].
  injection Ex as <-.
  pose proof (Z.quot_rem' x 10).
  destruct (Z.le_gt_cases 0 x).
  - pose proof (Z.rem_bound_pos_pos x 10 ltac:(lia) ltac:(lia)). lia.
  - pose proof (Z.rem_bound_pos_neg x 10 ltac:(lia) ltac:(lia)). lia.
Qed.

Definition pow10_cap (unsigned_bits x : Z) : outcome Z :=
  let pow10 := 0 in
  x <- (if x >? 0 then Returns x else t_neg x) ;;
  pow10_cap_loop unsigned_bits pow10 x.

End Pow10.

(** ** Ratio<T> *)

(** The two private members [numer_] and [denom_]. *)
Record Ratio : Set := mkRatio { numer_ : Z; denom_ : Z }.

Section RatioT.
Context `{Integral}.


(** [Ratio(const T& numer, const T& denom, NoReduceTag)] *)
Definition Ratio_noreduce (numer denom : Z) : Ratio := mkRatio numer denom.

(** [template<class U> Ratio(const U& u)]: [Ratio(T(u), T(1), NoReduceTag())]. *)
Definition Ratio_from (u : Z) : Ratio := Ratio_noreduce u 1.

Definition numer (this : Ratio) : Z := numer_ this.
Definition denom (this : Ratio) : Z := denom_ this.

(** [void reduce()], returning the updated object. *)
Definition reduce (this : Ratio) : outcome Ratio :=
  g <- gcd (numer_ this) (denom_ this) ;;
  n <- t_div (numer_ this) g ;;
  d <- t_div (denom_ this) g ;;
  if d <? 0 then
    n' <- t_sub 0 n ;;
    d' <- t_sub 0 d ;;
    Returns (mkRatio n' d')
  else Returns (mkRatio n d).

(** [Ratio(const T& numer, const T& denom) noexcept].  The constructor
    is declared [noexcept], so its [throw DivideByZeroException()] cannot
    leave it.  It is the only function with a [throw] expression among
    those embedded here; the [noexcept] of the others never comes into
    play, as nothing they call lets an exception out. *)
Definition Ratio_new (numer denom : Z) : outcome Ratio :=
  noexcept
    (if denom =? 0 then Throws DivideByZeroException
     else
       let ret := Ratio_noreduce numer denom in
       reduce ret).

Definition reduced (this : Ratio) : outcome Ratio := reduce this.

Definition to_integer (this : Ratio) : outcome Z :=
  t_div (numer_ this) (denom_ this).

Definition is_integer (this : Ratio) : bool := denom_ this =? 1.
Definition is_zero (this : Ratio) : bool := numer_ this =? 0.
Definition is_positive (this : Ratio) : bool := numer_ this >? 0.
Definition is_negative (this : Ratio) : bool := numer_ this <? 0.

Definition zero : Ratio := Ratio_noreduce 0 1.
Definition one : Ratio := Ratio_noreduce 1 1.

Definition make_ratio (numer denom : Z) : outcome Ratio := Ratio_new numer denom.

(** *** Binary and unary operators *)

Definition op_add (lhs rhs : Ratio) : outcome Ratio :=
  x <- t_mul (numer lhs) (denom rhs) ;;
  y <- t_mul (denom lhs) (numer rhs) ;;
  n <- t_add x y ;;
  d <- t_mul (denom lhs) (denom rhs) ;;
  Ratio_new n d.

Definition op_sub (lhs rhs : Ratio) : outcome Ratio :=
  x <- t_mul (numer lhs) (denom rhs) ;;
  y <- t_mul (denom lhs) (numer rhs) ;;
  n <- t_sub x y ;;
  d <- t_mul (denom lhs) (denom rhs) ;;
  Ratio_new n d.

Definition op_mod (lhs rhs : Ratio) : outcome Ratio :=
  x <- t_mul (numer lhs) (denom rhs) ;;
  y <- t_mul (denom lhs) (numer rhs) ;;
  n <- t_rem x y ;;
  d <- t_mul (denom lhs) (denom rhs) ;;
  Ratio_new n d.

Definition op_mul (lhs rhs : Ratio) : outcome Ratio :=
  n <- t_mul (numer lhs) (numer rhs) ;;
  d <- t_mul (denom lhs) (denom rhs) ;;
  Ratio_new n d.

Definition op_div (lhs rhs : Ratio) : outcome Ratio :=
  n <- t_mul (numer lhs) (denom rhs) ;;
  d <- t_mul (denom lhs) (numer rhs) ;;
  make_ratio n d.

(** Unary minus: [Ratio<T>(-rat.numer(), rat.denom(), NoReduceTag())]. *)
Definition op_neg (rat : Ratio) : outcome Ratio :=
  n <- t_neg (numer rat) ;;
  Returns (Ratio_noreduce n (denom rat)).

(** *** Comparison operators *)

Definition op_eq (lhs rhs : Ratio) : outcome bool :=
  x <- t_mul (numer lhs) (denom lhs) ;;
  y <- t_mul (numer rhs) (denom rhs) ;;
  Returns (x =? y).

Definition op_ne (lhs rhs : Ratio) : outcome bool :=
  e <- op_eq lhs rhs ;; Returns (negb e).

Definition op_gt (lhs rhs : Ratio) : outcome bool :=
  x <- t_mul (numer lhs) (denom lhs) ;;
  y <- t_mul (numer rhs) (denom rhs) ;;
  Returns (x >? y).

Definition op_lt (lhs rhs : Ratio) : outcome bool := op_gt rhs lhs.

Definition op_le (lhs rhs : Ratio) : outcome bool :=
  g <- op_gt lhs rhs ;; Returns (negb g).

Definition op_ge (lhs rhs : Ratio) : outcome bool :=
  l <- op_lt lhs rhs ;; Returns (negb l).

(** *** Rounding family *)

Definition trunc (this : Ratio) : outcome Ratio :=
  q <- t_div (numer_ this) (denom_ this) ;;
  Returns (Ratio_from q).

Definition fract (this : Ratio) : outcome Ratio :=
  r <- t_rem (numer_ this) (denom_ this) ;;
  Returns (Ratio_noreduce r (denom_ this)).

Definition floor (this : Ratio) : outcome Ratio :=
  neg <- op_lt this (Ratio_from 0) ;;
  if neg : bool then
    let one := 1 in
    x <- t_sub (numer_ this) (denom_ this) ;;
    y <- t_add x one ;;
    q <- t_div y (denom_ this) ;;
    Returns (Ratio_from q)
  else
    q <- t_div (numer_ this) (denom_ this) ;;
    Returns (Ratio_from q).

Definition ceil (this : Ratio) : outcome Ratio :=
  neg <- op_lt this (Ratio_from 0) ;;
  if neg : bool then
    q <- t_div (numer_ this) (denom_ this) ;;
    Returns (Ratio_from q)
  else
    let one := 1 in
    x <- t_add (numer_ this) (denom_ this) ;;
    y <- t_sub x one ;;
    q <- t_div y (denom_ this) ;;
    Returns (Ratio_from q).

(** [round()] has no embedding.  As written (lines 223 to 228 of the
    header) it declares [const bool half_or_larger;] without an
    initializer and then assigns to it in both branches of the parity
    test; that is ill-formed, so no program that calls [round()]
    compiles.  The well-formed expressions of its body (the absolute
    fractional part, the parity-aware test, the sign test) are stated
    where they are used in the properties. *)

(** [abs()] and [signum()]. *)
Definition abs (this : Ratio) : outcome Ratio :=
  if is_positive this || is_zero this then Returns this else op_neg this.

Definition signum (this : Ratio) : Z :=
  if is_zero this then 0 else if is_positive this then 1 else -1.

End RatioT.

(** ** Increment and decrement *)

Section Increment.
Context `{Integral}.





End Increment.

(** ** Conversion between Ratio<U> and Ratio<T> *)

(** Conversion of an integer value to T: the value of T congruent to it
    modulo 2^bits. *)
Definition to_T `{Integral} (z : Z) : Z := (z - min_T) mod 2 ^ bits + min_T.

(** [template<class U> Ratio(const Ratio<U>& rat)], the converting
    assignment and [explicit operator Ratio<U>()] all convert the two
    members to the target type, without reducing. *)
Definition Ratio_convert {To : Integral} (rat : Ratio) : Ratio :=
  Ratio_noreduce (to_T (H := To) (numer_ rat)) (to_T (H := To) (denom_ rat)).

(** ** Integral types narrower than int *)



(** ** Notions of the specification *)

(** The invariant of the data model: [denominator > 0] and
    [gcd(|numerator|, denominator) == 1]. *)
Definition invariant (r : Ratio) : Prop :=
  0 < denom_ r /\ Z.gcd (Z.abs (numer_ r)) (denom_ r) = 1.

Definition invariantb (r : Ratio) : bool :=
  (0 <? denom_ r) && (Z.gcd (Z.abs (numer_ r)) (denom_ r) =? 1).

(** Both members are values of T. *)
Definition representable `{Integral} (r : Ratio) : Prop :=
  in_range (numer_ r) /\ in_range (denom_ r).

(** A value as it leaves the public interface. *)
Definition valid `{Integral} (r : Ratio) : Prop :=
  representable r /\ invariant r.

(** [r] is the exact fraction [n/d]. *)
Definition same_fraction (r : Ratio) (n d : Z) : Prop :=
  numer_ r * d = n * denom_ r.

(** The fraction [n/d] in lowest terms with a positive denominator. *)
Definition lowest (n d : Z) : Ratio :=
  let g := Z.gcd n d in
  if d <? 0 then mkRatio (- (n / g)) (- (d / g)) else mkRatio (n / g) (d / g).

(** The exact rational number [n/d], and the one a ratio denotes. *)
Definition frac (n d : Z) : Q := (inject_Z n / inject_Z d)%Q.
Definition value (r : Ratio) : Q := frac (numer_ r) (denom_ r).

(** An evaluation returns the exact fraction [n/d], as a valid value (so
    in lowest terms). *)
Definition computes `{Integral} (o : outcome Ratio) (n d : Z) : Prop :=
  exists r, o = Returns r /\ valid r /\ (value r == frac n d)%Q.

(** * Properties *)

(** ** The range of T and the built-in operations *)

Section ArithmeticFacts.
Context `{Integral}.

Lemma max_T_ge : 32767 <= max_T.
Proof.
  unfold max_T. pose proof bits_ge_16.
  assert (2 ^ 15 <= 2 ^ (bits - 1)) by (apply Z.pow_le_mono_r; lia).
  change (2 ^ 15) with 32768 in *. lia.
Qed.

Lemma min_T_eq : min_T = - max_T - 1.
Proof. unfold min_T, max_T. lia. Qed.

Lemma in_rangeb_spec z : reflect (in_range z) (in_rangeb z).
Proof.
  unfold in_range, in_rangeb.
  destruct (Z.leb_spec0 min_T z), (Z.leb_spec0 z max_T); constructor; lia.
Qed.

Lemma fitsb_spec z : reflect (fits z) (fitsb z).
Proof.
  unfold fits, fitsb.
  destruct (Z.leb_spec0 (- max_T) z), (Z.leb_spec0 z max_T); constructor; lia.
Qed.

Lemma fits_in_range z : fits z -> in_range z.
Proof. unfold fits, in_range. rewrite min_T_eq. lia. Qed.

Lemma checked_in z : in_range z -> checked z = Returns z.
Proof. unfold checked. destruct (in_rangeb_spec z); tauto. Qed.

Lemma checked_out z : ~ in_range z -> checked z = Undefined.
Proof. unfold checked. destruct (in_rangeb_spec z); tauto. Qed.

Lemma checked_inv z x : checked z = Returns x -> x = z /\ in_range z.
Proof.
  unfold checked. destruct (in_rangeb_spec z); [|discriminate].
  intros [= <-]. auto.
Qed.

Lemma t_div_in a b : b <> 0 -> in_range (a ÷ b) -> t_div a b = Returns (a ÷ b).
Proof.
  intros Hb Hq. unfold t_div.
  destruct (Z.eqb_spec b 0); [contradiction|]. now apply checked_in.
Qed.

Lemma t_div_inv a b q :
  t_div a b = Returns q -> b <> 0 /\ q = a ÷ b /\ in_range (a ÷ b).
Proof.
  unfold t_div. destruct (Z.eqb_spec b 0); [discriminate|].
  intros Hq. apply checked_inv in Hq. tauto.
Qed.

Lemma t_rem_in a b : b <> 0 -> in_range (a ÷ b) -> t_rem a b = Returns (Z.rem a b).
Proof.
  intros Hb Hq. unfold t_rem.
  destruct (Z.eqb_spec b 0); [contradiction|].
  destruct (in_rangeb_spec (a ÷ b)); tauto.
Qed.

Lemma t_rem_inv a b r :
  t_rem a b = Returns r -> b <> 0 /\ r = Z.rem a b /\ in_range (a ÷ b).
Proof.
  unfold t_rem. destruct (Z.eqb_spec b 0); [discriminate|].
  destruct (in_rangeb_spec (a ÷ b)); [|discriminate].
  intros [= <-]. auto.
Qed.

(** A quotient by a positive divisor is no farther from zero than the
    dividend, hence representable. *)
Lemma quot_in_range a b : in_range a -> 0 < b -> in_range (a ÷ b).
Proof.
  unfold in_range. pose proof max_T_ge. pose proof min_T_eq. intros Ha Hb.
  destruct (Z.le_gt_cases 0 a) as [Hpos|Hneg].
  - pose proof (Z.quot_pos a b Hpos Hb).
    assert (a ÷ b <= a) by (apply Z.quot_le_upper_bound; nia).
    lia.
  - replace a with (- (- a)) by lia. rewrite Z.quot_opp_l by lia.
    pose proof (Z.quot_pos (- a) b ltac:(lia) Hb).
    assert (- a ÷ b <= - a) by (apply Z.quot_le_upper_bound; nia).
    lia.
Qed.

Lemma bind_inv {A B} (m : outcome A) (k : A -> outcome B) r :
  bind m k = Returns r -> exists a, m = Returns a /\ k a = Returns r.
Proof. destruct m; simpl; try discriminate. eauto. Qed.

End ArithmeticFacts.

(** ** gcd computes the greatest common divisor *)

Section GcdFacts.
Context `{Integral}.

Lemma t_rem_nonneg a b :
  0 <= a -> 0 < b -> in_range a -> t_rem a b = Returns (a mod b).
Proof.
  intros Ha Hb Hr. rewrite t_rem_in.
  - now rewrite Z.rem_mod_nonneg.
  - lia.
  - now apply quot_in_range.
Qed.

Lemma gcd_loop_spec a b :
  0 <= a -> 0 <= b -> in_range a -> in_range b ->
  gcd_loop a b = Returns (Z.gcd a b).
Proof.
  funelim (gcd_loop a b); intros Ha0 Hb0 Hra Hrb;
    pose proof min_T_eq as Hm; pose proof max_T_ge as HM;
    repeat match goal with
           | S : sigmaI _ _ _ = _ |- _ => clear S
           end;
    try match goal with
        | E : t_rem a b = _ |- _ =>
            rewrite t_rem_nonneg in E by (assumption || lia);
            try discriminate; injection E as E
        end.
  - subst. rewrite Z.gcd_0_r. f_equal. lia.
  - (* a % b == 0: b divides a *)
    f_equal. symmetry. rewrite Z.gcd_comm.
    apply Z.divide_gcd_iff; [assumption|].
    apply Z.mod_divide; [assumption|]. lia.
  - (* one more round of the loop *)
    pose proof (Z.mod_pos_bound a b ltac:(lia)) as Ba.
    assert (Rb : in_range a') by (unfold in_range in *; lia).
    match goal with
    | E : t_rem b a' = _ |- _ =>
        rewrite t_rem_nonneg in E by (assumption || lia); injection E as E
    end.
    pose proof (Z.mod_pos_bound b a' ltac:(lia)) as Bb.
    match goal with
    | IH : _ -> _ -> _ -> _ -> gcd_loop a' b' = _ |- _ =>
        rewrite IH by (unfold in_range in *; lia)
    end.
    f_equal. subst b'.
    rewrite (Z.gcd_comm a'), Z.gcd_mod by lia.
    subst a'. rewrite Z.gcd_mod by lia. apply Z.gcd_comm.
  (* b % a' cannot fail *)
  - pose proof (Z.mod_pos_bound a b ltac:(lia)) as Ba.
    match goal with
    | E : t_rem b a' = _ |- _ =>
        rewrite t_rem_nonneg in E by (unfold in_range in *; lia); discriminate
    end.
  - pose proof (Z.mod_pos_bound a b ltac:(lia)) as Ba.
    match goal with
    | E : t_rem b a' = _ |- _ =>
        rewrite t_rem_nonneg in E by (unfold in_range in *; lia); discriminate
    end.
  - pose proof (Z.mod_pos_bound a b ltac:(lia)) as Ba.
    match goal with
    | E : t_rem b a' = _ |- _ =>
        rewrite t_rem_nonneg in E by (unfold in_range in *; lia); discriminate
    end.
Qed.

(** [gcd] returns exactly when neither argument is the most negative
    value of T, whose negation overflows. *)
Lemma gcd_spec a b :
  in_range a -> in_range b ->
  gcd a b = if fitsb a && fitsb b then Returns (Z.gcd a b) else Undefined.
Proof.
  intros Hra Hrb. unfold gcd, t_neg.
  pose proof min_T_eq as Hm. pose proof max_T_ge as HM.
  destruct (fitsb_spec a) as [Fa|Fa]; simpl.
  - assert (Ea : (if a <? 0 then checked (- a) else Returns a) = Returns (Z.abs a)).
    { destruct (Z.ltb_spec a 0).
      - rewrite checked_in by (unfold fits, in_range in *; lia). f_equal. lia.
      - f_equal. lia. }
    rewrite Ea. simpl.
    destruct (fitsb_spec b) as [Fb|Fb].
    + assert (Eb : (if b <? 0 then checked (- b) else Returns b) = Returns (Z.abs b)).
      { destruct (Z.ltb_spec b 0).
        - rewrite checked_in by (unfold fits, in_range in *; lia). f_equal. lia.
        - f_equal. lia. }
      rewrite Eb. simpl.
      rewrite gcd_loop_spec by (unfold fits, in_range in *; lia).
      now rewrite Z.gcd_abs_l, Z.gcd_abs_r.
    + assert (b = min_T) by (unfold fits, in_range in *; lia). subst b.
      destruct (Z.ltb_spec min_T 0); [|lia].
      rewrite checked_out by (unfold in_range; lia). reflexivity.
  - assert (a = min_T) by (unfold fits, in_range in *; lia). subst a.
    destruct (Z.ltb_spec min_T 0); [|lia].
    rewrite checked_out by (unfold in_range; lia). reflexivity.
Qed.

End GcdFacts.

(** ** Exact fractions *)

Lemma inject_Z_nonzero d : d <> 0 -> ~ (inject_Z d == 0)%Q.
Proof. intros Hd E. apply Hd. unfold Qeq, inject_Z in E. simpl in E. lia. Qed.

Lemma frac_eq n1 d1 n2 d2 :
  d1 <> 0 -> d2 <> 0 -> ((frac n1 d1 == frac n2 d2)%Q <-> n1 * d2 = n2 * d1).
Proof.
  intros H1 H2. unfold frac.
  pose proof (inject_Z_nonzero d1 H1) as Q1.
  pose proof (inject_Z_nonzero d2 H2) as Q2.
  split.
  - intros E.
    assert (X : (inject_Z n1 * inject_Z d2 == inject_Z n2 * inject_Z d1)%Q).
    { transitivity ((inject_Z n1 / inject_Z d1) * (inject_Z d1 * inject_Z d2))%Q.
      - field. assumption.
      - rewrite E. field. assumption. }
    rewrite <- !inject_Z_mult in X. unfold Qeq, inject_Z in X. simpl in X. lia.
  - intros E.
    assert (X : (inject_Z n1 * inject_Z d2 == inject_Z n2 * inject_Z d1)%Q).
    { rewrite <- !inject_Z_mult. now rewrite E. }
    apply Qmult_inj_r with (inject_Z d1 * inject_Z d2)%Q.
    + intros Z0. apply Qmult_integral in Z0. tauto.
    + transitivity (inject_Z n1 * inject_Z d2)%Q; [field; assumption|].
      rewrite X. field. assumption.
Qed.

Lemma frac_add n1 d1 n2 d2 :
  d1 <> 0 -> d2 <> 0 ->
  (frac n1 d1 + frac n2 d2 == frac (n1 * d2 + d1 * n2) (d1 * d2))%Q.
Proof.
  intros H1 H2. unfold frac. rewrite inject_Z_plus, !inject_Z_mult.
  pose proof (inject_Z_nonzero d1 H1). pose proof (inject_Z_nonzero d2 H2).
  field. tauto.
Qed.
Lemma frac_sub n1 d1 n2 d2 :
  d1 <> 0 -> d2 <> 0 ->
  (frac n1 d1 - frac n2 d2 == frac (n1 * d2 - d1 * n2) (d1 * d2))%Q.
Proof.
  intros H1 H2. unfold frac, Z.sub. rewrite inject_Z_plus, inject_Z_opp, !inject_Z_mult.
  pose proof (inject_Z_nonzero d1 H1). pose proof (inject_Z_nonzero d2 H2).
  field. tauto.
Qed.
Lemma frac_mul n1 d1 n2 d2 :
  d1 <> 0 -> d2 <> 0 ->
  (frac n1 d1 * frac n2 d2 == frac (n1 * n2) (d1 * d2))%Q.
Proof.
  intros H1 H2. unfold frac. rewrite !inject_Z_mult.
  pose proof (inject_Z_nonzero d1 H1). pose proof (inject_Z_nonzero d2 H2).
  field. tauto.
Qed.
Lemma frac_div n1 d1 n2 d2 :
  d1 <> 0 -> d2 <> 0 -> n2 <> 0 ->
  (frac n1 d1 / frac n2 d2 == frac (n1 * d2) (d1 * n2))%Q.
Proof.
  intros H1 H2 H3. unfold frac. rewrite !inject_Z_mult.
  pose proof (inject_Z_nonzero d1 H1). pose proof (inject_Z_nonzero d2 H2).
  pose proof (inject_Z_nonzero n2 H3).
  field. tauto.
Qed.
Lemma frac_Qmake n d : 0 < d -> (frac n d == n # Z.to_pos d)%Q.
Proof.
  intros Hd. unfold frac.
  destruct d as [|p|p]; try lia.
  unfold Qdiv, Qinv, Qmult, Qeq, inject_Z. simpl. lia.
Qed.

Lemma frac_pos n d : 0 < d -> ((0 < frac n d)%Q <-> 0 < n).
Proof.
  intros Hd. unfold frac.
  destruct d as [|p|p]; try lia.
  unfold Qdiv, Qinv, Qmult, Qlt, inject_Z. simpl. lia.
Qed.
Lemma frac_neg n d : 0 < d -> ((frac n d < 0)%Q <-> n < 0).
Proof.
  intros Hd. unfold frac.
  destruct d as [|p|p]; try lia.
  unfold Qdiv, Qinv, Qmult, Qlt, inject_Z. simpl. lia.
Qed.

(** ** The invariant and the normalizing constructor *)

Section Normalization.
Context `{Integral}.

Lemma invariantb_spec r : invariantb r = true <-> invariant r.
Proof.
  unfold invariantb, invariant.
  rewrite andb_true_iff, Z.ltb_lt, Z.eqb_eq. tauto.
Qed.


(** Two values in lowest terms that denote the same fraction are the
    same pair. *)
Lemma invariant_unique r1 r2 :
  invariant r1 -> invariant r2 ->
  numer_ r1 * denom_ r2 = numer_ r2 * denom_ r1 -> r1 = r2.
Proof.
  destruct r1 as [n1 d1], r2 as [n2 d2]. unfold invariant. simpl.
  rewrite !Z.gcd_abs_l. intros [Hd1 Hg1] [Hd2 Hg2] E.
  assert (D12 : (d1 | d2)).
  { apply Z.gauss with n1; [|now rewrite Z.gcd_comm].
    exists n2. lia. }
  assert (D21 : (d2 | d1)).
  { apply Z.gauss with n2; [|now rewrite Z.gcd_comm].
    exists n1. lia. }
  assert (d1 = d2).
  { apply Z.divide_pos_le in D12, D21; lia. }
  subst d2. f_equal. nia.
Qed.

Lemma quot_exact n g : g <> 0 -> (g | n) -> n ÷ g = n / g.
Proof. intros Hg [k ->]. now rewrite Z.quot_mul, Z.div_mul. Qed.

Lemma lowest_invariant n d : d <> 0 -> invariant (lowest n d).
Proof.
  intros Hd. unfold lowest, invariant.
  pose proof (Z.gcd_nonneg n d) as G0.
  assert (G : Z.gcd n d <> 0) by (intros E; apply Z.gcd_eq_0_r in E; lia).
  pose proof (Z.gcd_div_gcd n d (Z.gcd n d) G eq_refl) as C.
  destruct (Z.gcd_divide_r n d) as [k Ek].
  assert (Q : d / Z.gcd n d = k).
  { rewrite Ek at 1. now apply Z.div_mul. }
  destruct (Z.ltb_spec d 0); simpl; rewrite Z.gcd_abs_l.
  - rewrite Z.gcd_opp_l, Z.gcd_opp_r. split; [nia | assumption].
  - split; [nia | assumption].
Qed.

Lemma lowest_same_fraction n d : d <> 0 -> same_fraction (lowest n d) n d.
Proof.
  intros Hd. unfold lowest, same_fraction.
  assert (G : Z.gcd n d <> 0) by (intros E; apply Z.gcd_eq_0_r in E; lia).
  destruct (Z.gcd_divide_r n d) as [k Ek].
  destruct (Z.gcd_divide_l n d) as [j Ej].
  assert (Qd : d / Z.gcd n d = k) by (rewrite Ek at 1; now apply Z.div_mul).
  assert (Qn : n / Z.gcd n d = j) by (rewrite Ej at 1; now apply Z.div_mul).
  rewrite Qd, Qn.
  destruct (d <? 0); simpl; rewrite Ek at 1; rewrite Ej at 2; ring.
Qed.

Lemma lowest_fits n d :
  fits n -> fits d -> d <> 0 ->
  fits (numer_ (lowest n d)) /\ fits (denom_ (lowest n d)).
Proof.
  intros Fn Fd Hd. unfold lowest.
  pose proof (Z.gcd_nonneg n d) as G0.
  assert (G : Z.gcd n d <> 0) by (intros E; apply Z.gcd_eq_0_r in E; lia).
  destruct (Z.gcd_divide_r n d) as [k Ek].
  destruct (Z.gcd_divide_l n d) as [j Ej].
  assert (Qd : d / Z.gcd n d = k) by (rewrite Ek at 1; now apply Z.div_mul).
  assert (Qn : n / Z.gcd n d = j) by (rewrite Ej at 1; now apply Z.div_mul).
  rewrite Qd, Qn. unfold fits in *.
  destruct (d <? 0); simpl; nia.
Qed.

(** [reduce] on a pair of values of T, not both zero. *)
Lemma reduce_spec n d :
  in_range n -> in_range d -> d <> 0 ->
  reduce (mkRatio n d) =
  if fitsb n && fitsb d then Returns (lowest n d) else Undefined.
Proof.
  intros Rn Rd Hd. unfold reduce. simpl.
  rewrite gcd_spec by assumption.
  destruct (fitsb_spec n) as [Fn|]; [|reflexivity].
  destruct (fitsb_spec d) as [Fd|]; [|reflexivity]. simpl.
  pose proof (Z.gcd_nonneg n d) as G0.
  assert (G : Z.gcd n d <> 0) by (intros E; apply Z.gcd_eq_0_r in E; lia).
  rewrite !t_div_in by (try apply quot_in_range; (assumption || lia)).
  simpl.
  rewrite !quot_exact
    by (try apply Z.gcd_divide_l; try apply Z.gcd_divide_r; assumption).
  destruct (lowest_fits n d Fn Fd Hd) as [Ln Ld].
  unfold lowest in *.
  destruct (Z.gcd_divide_r n d) as [k Ek].
  assert (Qd : d / Z.gcd n d = k) by (rewrite Ek at 1; now apply Z.div_mul).
  destruct (Z.ltb_spec d 0); simpl in *.
  - destruct (Z.ltb_spec (d / Z.gcd n d) 0); [|nia].
    unfold t_sub.
    rewrite !checked_in by (apply fits_in_range; unfold fits in *; lia).
    reflexivity.
  - destruct (Z.ltb_spec (d / Z.gcd n d) 0); [nia|]. reflexivity.
Qed.

(** The two-argument constructor on values of T: on a zero denominator
    its [throw] ends in [std::terminate], it is undefined when an argument
    is the most negative value of T, and otherwise it returns the fraction
    in lowest terms. *)
Lemma Ratio_new_spec n d :
  in_range n -> in_range d ->
  Ratio_new n d =
  if d =? 0 then Terminates
  else if fitsb n && fitsb d then Returns (lowest n d) else Undefined.
Proof.
  intros Rn Rd. unfold Ratio_new, Ratio_noreduce.
  destruct (Z.eqb_spec d 0); [reflexivity|].
  rewrite reduce_spec by assumption.
  now destruct (fitsb n && fitsb d).
Qed.

Lemma Ratio_new_returns n d :
  fits n -> fits d -> d <> 0 -> Ratio_new n d = Returns (lowest n d).
Proof.
  intros Fn Fd Hd. rewrite Ratio_new_spec by now apply fits_in_range.
  destruct (Z.eqb_spec d 0); [contradiction|].
  destruct (fitsb_spec n); [|contradiction].
  destruct (fitsb_spec d); [|contradiction]. reflexivity.
Qed.


Lemma lowest_valid n d : fits n -> fits d -> d <> 0 -> valid (lowest n d).
Proof.
  intros Fn Fd Hd. split; [|now apply lowest_invariant].
  destruct (lowest_fits n d Fn Fd Hd). split; now apply fits_in_range.
Qed.

(** A value in lowest terms is left unchanged by normalization. *)
Lemma lowest_of_invariant r n d :
  invariant r -> d <> 0 -> same_fraction r n d -> lowest n d = r.
Proof.
  intros Hr Hd Hs. apply invariant_unique.
  - now apply lowest_invariant.
  - assumption.
  - pose proof (lowest_same_fraction n d Hd) as L.
    unfold same_fraction in *.
    apply Z.mul_reg_r with d; [assumption|].
    transitivity (numer_ (lowest n d) * d * denom_ r); [ring|].
    rewrite L.
    transitivity (numer_ r * d * denom_ (lowest n d)); [|ring].
    rewrite Hs. ring.
Qed.

End Normalization.

(** ** Comparison operators *)

Section Comparison.
Context `{Integral}.

(** What [operator==] and [operator>] compute when the two products
    they form are representable. *)
Lemma op_eq_spec lhs rhs :
  in_range (numer_ lhs * denom_ lhs) -> in_range (numer_ rhs * denom_ rhs) ->
  op_eq lhs rhs =
  Returns (numer_ lhs * denom_ lhs =? numer_ rhs * denom_ rhs).
Proof.
  intros Hl Hr. unfold op_eq, t_mul, numer, denom.
  now rewrite !checked_in.
Qed.

Lemma op_gt_spec lhs rhs :
  in_range (numer_ lhs * denom_ lhs) -> in_range (numer_ rhs * denom_ rhs) ->
  op_gt lhs rhs =
  Returns (numer_ lhs * denom_ lhs >? numer_ rhs * denom_ rhs).
Proof.
  intros Hl Hr. unfold op_gt, t_mul, numer, denom.
  now rewrite !checked_in.
Qed.

(** [<], [<=] and [>=] are [>] with the operands swapped or the result
    negated. *)
Lemma op_lt_swap lhs rhs : op_lt lhs rhs = op_gt rhs lhs.
Proof. reflexivity. Qed.

Lemma op_le_not_gt lhs rhs :
  op_le lhs rhs = (g <- op_gt lhs rhs ;; Returns (negb g)).
Proof. reflexivity. Qed.

Lemma op_ge_not_lt lhs rhs :
  op_ge lhs rhs = (l <- op_gt rhs lhs ;; Returns (negb l)).
Proof. reflexivity. Qed.

Lemma small_in_range z : -32767 <= z <= 32767 -> in_range z.
Proof. pose proof max_T_ge. pose proof min_T_eq. unfold in_range. lia. Qed.

Lemma small_fits z : -32767 <= z <= 32767 -> fits z.
Proof. pose proof max_T_ge. unfold fits. lia. Qed.

(** C1 (the code departs from the claim).  [operator==] and [operator>]
    compare the product of each operand's own numerator and denominator,
    not the cross products: on the lowest-terms values 1/2 and 2/1
    [operator==] returns true although 1*1 <> 2*2, and on 1/2 and 1/3
    [operator>] returns false although 1*3 > 2*1. *)
Theorem comparison_uses_own_products :
  let a := mkRatio 1 2 in
  let b := mkRatio 2 1 in
  let c := mkRatio 1 3 in
  (valid a /\ valid b /\ valid c) /\
  (op_eq a b = Returns true /\ numer a * denom b <> numer b * denom a) /\
  (op_gt a c = Returns false /\ numer a * denom c > denom a * numer c).
Proof.
  cbv zeta. repeat split; simpl;
    try (apply small_in_range; lia); try lia; try reflexivity.
  - rewrite op_eq_spec by (apply small_in_range; simpl; lia). reflexivity.
  - rewrite op_gt_spec by (apply small_in_range; simpl; lia). reflexivity.
Qed.

Lemma op_gt_zero r :
  0 < denom_ r -> in_range (numer_ r * denom_ r) ->
  op_gt r (Ratio_from 0) = Returns (0 <? numer_ r).
Proof.
  intros Hd Hp.
  assert (Z0 : in_range (0 * 1)) by (apply small_in_range; lia).
  rewrite op_gt_spec by assumption. simpl. f_equal.
  rewrite Z.gtb_ltb.
  destruct (Z.ltb_spec 0 (numer_ r * denom_ r)),
           (Z.ltb_spec 0 (numer_ r)); (reflexivity || nia).
Qed.

Lemma op_lt_zero r :
  0 < denom_ r -> in_range (numer_ r * denom_ r) ->
  op_lt r (Ratio_from 0) = Returns (numer_ r <? 0).
Proof.
  intros Hd Hp.
  assert (Z0 : in_range (0 * 1)) by (apply small_in_range; lia).
  unfold op_lt. rewrite op_gt_spec by assumption. simpl. f_equal.
  rewrite Z.gtb_ltb.
  destruct (Z.ltb_spec (numer_ r * denom_ r) 0),
           (Z.ltb_spec (numer_ r) 0); (reflexivity || nia).
Qed.

(** X26.  Against the zero ratio the comparison decides the sign of the
    numerator when the product numerator * denominator is representable:
    for such a ratio with positive denominator [r > Ratio<T>(0)] returns
    true exactly when the numerator is positive and [r < Ratio<T>(0)]
    exactly when it is negative, which is the sign of the exact value. *)
Theorem compare_with_zero_is_sign (r : Ratio) :
  invariant r ->
  in_range (numer_ r * denom_ r) ->
  (op_gt r (Ratio_from 0) = Returns (0 <? numer_ r) /\
   op_lt r (Ratio_from 0) = Returns (numer_ r <? 0)) /\
  ((op_gt r (Ratio_from 0) = Returns true <-> 0 < numer_ r) /\
   (op_lt r (Ratio_from 0) = Returns true <-> numer_ r < 0)) /\
  ((0 < numer_ r <-> (0 < value r)%Q) /\
   (numer_ r < 0 <-> (value r < 0)%Q)).
Proof.
  intros [Hd _] Hp.
  rewrite op_gt_zero, op_lt_zero by assumption. split; [tauto|]. repeat split.
  - intros [= E]. now apply Z.ltb_lt.
  - intros E. f_equal. now apply Z.ltb_lt.
  - intros [= E]. now apply Z.ltb_lt.
  - intros E. f_equal. now apply Z.ltb_lt.
  - now apply frac_pos.
  - now apply frac_pos.
  - now apply frac_neg.
  - now apply frac_neg.
Qed.

End Comparison.

(** ** Errors *)

Section Errors.
Context `{Integral}.

Lemma noexcept_never_throws {A} (m : outcome A) e : noexcept m <> Throws e.
Proof. destruct m; discriminate. Qed.

Lemma Ratio_new_never_throws n d e : Ratio_new n d <> Throws e.
Proof. apply noexcept_never_throws. Qed.

Lemma bind_never_throws {A B} (m : outcome A) (k : A -> outcome B) :
  (forall e, m <> Throws e) -> (forall a e, k a <> Throws e) ->
  forall e, bind m k <> Throws e.
Proof.
  intros Hm Hk e. destruct m as [a|e0| |]; simpl.
  - apply Hk.
  - intros _. now apply (Hm e0).
  - discriminate.
  - discriminate.
Qed.

Lemma checked_never_throws z e : checked z <> Throws e.
Proof. unfold checked. destruct (in_rangeb z); discriminate. Qed.

Lemma t_rem_never_throws a b e : t_rem a b <> Throws e.
Proof.
  unfold t_rem. destruct (b =? 0); [discriminate|].
  destruct (in_rangeb (a ÷ b)); discriminate.
Qed.

(** No binary operator lets an exception out, so the [noexcept] on their
    own declarations is never what stops one. *)
Lemma operators_never_throw lhs rhs e :
  op_add lhs rhs <> Throws e /\ op_sub lhs rhs <> Throws e /\
  op_mul lhs rhs <> Throws e /\ op_div lhs rhs <> Throws e /\
  op_mod lhs rhs <> Throws e /\ make_ratio (numer lhs) (denom lhs) <> Throws e.
Proof.
  unfold op_add, op_sub, op_mul, op_div, op_mod, make_ratio, t_mul, t_add, t_sub.
  repeat split;
    repeat (apply bind_never_throws;
            [intros ?; first [apply checked_never_throws | apply t_rem_never_throws]
            | intros ? ?]);
    apply Ratio_new_never_throws.
Qed.

Lemma op_div_by_zero lhs rhs :
  numer_ rhs = 0 -> in_range (numer_ lhs * denom_ rhs) ->
  op_div lhs rhs = Terminates.
Proof.
  intros Hz Hr. unfold op_div, t_mul, numer, denom, make_ratio.
  rewrite Hz, Z.mul_0_r.
  rewrite !checked_in by (assumption || (apply small_in_range; lia)).
  reflexivity.
Qed.

(** C3 (the code departs from the claim).  The constructor executes
    [throw DivideByZeroException()] on a zero denominator, but it is
    declared [noexcept], as are [make_ratio] and [operator/]: the
    exception cannot leave the constructor, [std::terminate] is called,
    and no caller ever receives a DivideByZeroException.  So
    [Ratio<T>(5, 0)] and [Ratio<T>(5, 3) / Ratio<T>(0)] end the program
    instead of failing with an error that propagates. *)
Theorem zero_denominator_terminates :
  (forall n, Ratio_new n 0 = Terminates) /\
  (forall n d e, Ratio_new n d <> Throws e) /\
  (forall lhs rhs e, op_div lhs rhs <> Throws e) /\
  Ratio_new 5 0 <> Throws DivideByZeroException /\
  op_div (mkRatio 5 3) (Ratio_from 0) = Terminates /\
  op_div (mkRatio 5 3) (Ratio_from 0) <> Throws DivideByZeroException.
Proof.
  split; [reflexivity|].
  split; [exact Ratio_new_never_throws|].
  split; [intros lhs rhs e; apply (operators_never_throw lhs rhs e)|].
  split; [apply Ratio_new_never_throws|].
  assert (E : op_div (mkRatio 5 3) (Ratio_from 0) = Terminates).
  { apply op_div_by_zero; [reflexivity|]. simpl. apply small_in_range. lia. }
  split; [exact E|]. rewrite E. discriminate.
Qed.

End Errors.

(** ** Arithmetic operators *)

(** Evaluate the checked operations whose results are known to be
    representable. *)
Ltac run_checked :=
  repeat (rewrite checked_in by (assumption || (apply fits_in_range; assumption));
          cbn [bind]).

Section Operators.
Context `{Integral}.

Lemma value_lowest n d : d <> 0 -> (value (lowest n d) == frac n d)%Q.
Proof.
  intros Hd. unfold value.
  pose proof (lowest_invariant n d Hd) as [Hp _].
  apply frac_eq; [lia | assumption |].
  now apply lowest_same_fraction.
Qed.

Lemma computes_lowest n d :
  fits n -> fits d -> d <> 0 -> computes (Returns (lowest n d)) n d.
Proof.
  intros Fn Fd Hd. exists (lowest n d).
  split; [reflexivity|]. split; [now apply lowest_valid | now apply value_lowest].
Qed.

Lemma op_add_returns lhs rhs :
  let a := numer_ lhs in let b := denom_ lhs in
  let c := numer_ rhs in let d := denom_ rhs in
  in_range (a * d) -> in_range (b * c) ->
  fits (a * d + b * c) -> fits (b * d) -> b * d <> 0 ->
  op_add lhs rhs = Returns (lowest (a * d + b * c) (b * d)).
Proof.
  intros a b c d R1 R2 F1 F2 Hd. unfold op_add, t_mul, t_add, numer, denom.
  fold a b c d.
  run_checked. now apply Ratio_new_returns.
Qed.

Lemma op_sub_returns lhs rhs :
  let a := numer_ lhs in let b := denom_ lhs in
  let c := numer_ rhs in let d := denom_ rhs in
  in_range (a * d) -> in_range (b * c) ->
  fits (a * d - b * c) -> fits (b * d) -> b * d <> 0 ->
  op_sub lhs rhs = Returns (lowest (a * d - b * c) (b * d)).
Proof.
  intros a b c d R1 R2 F1 F2 Hd. unfold op_sub, t_mul, t_sub, numer, denom.
  fold a b c d.
  run_checked. now apply Ratio_new_returns.
Qed.

Lemma op_mul_returns lhs rhs :
  let a := numer_ lhs in let b := denom_ lhs in
  let c := numer_ rhs in let d := denom_ rhs in
  fits (a * c) -> fits (b * d) -> b * d <> 0 ->
  op_mul lhs rhs = Returns (lowest (a * c) (b * d)).
Proof.
  intros a b c d F1 F2 Hd. unfold op_mul, t_mul, numer, denom.
  fold a b c d.
  run_checked. now apply Ratio_new_returns.
Qed.

Lemma op_div_returns lhs rhs :
  let a := numer_ lhs in let b := denom_ lhs in
  let c := numer_ rhs in let d := denom_ rhs in
  fits (a * d) -> fits (b * c) -> b * c <> 0 ->
  op_div lhs rhs = Returns (lowest (a * d) (b * c)).
Proof.
  intros a b c d F1 F2 Hd. unfold op_div, make_ratio, t_mul, numer, denom.
  fold a b c d.
  run_checked. now apply Ratio_new_returns.
Qed.

(** The remainder of a truncating division is strictly smaller in
    magnitude than the divisor, so it is never the most negative value. *)
Lemma rem_fits x y : in_range y -> y <> 0 -> fits (Z.rem x y).
Proof.
  intros Ry Hy. pose proof (Z.rem_bound_abs x y Hy) as B.
  pose proof min_T_eq. unfold fits, in_range in *. lia.
Qed.

Lemma op_mod_returns lhs rhs :
  let a := numer_ lhs in let b := denom_ lhs in
  let c := numer_ rhs in let d := denom_ rhs in
  in_range (a * d) -> in_range (b * c) -> b * c <> 0 ->
  in_range ((a * d) ÷ (b * c)) -> fits (b * d) -> b * d <> 0 ->
  op_mod lhs rhs = Returns (lowest (Z.rem (a * d) (b * c)) (b * d)).
Proof.
  intros a b c d R1 R2 Hy Rq F2 Hd. unfold op_mod, t_mul, numer, denom.
  fold a b c d.
  run_checked. rewrite t_rem_in by assumption. cbn [bind].
  run_checked. apply Ratio_new_returns; try assumption. now apply rem_fits.
Qed.

(** C4.  On valid operands whose cross products are representable (and
    not the most negative value where they reach the constructor), each
    binary operator returns its textbook fraction, formed by
    cross-multiplication and reduced to lowest terms by the normalizing
    constructor; the value returned is the exact sum, difference,
    product or quotient of the operands. *)
Theorem binary_operators_exact (lhs rhs : Ratio) :
  valid lhs -> valid rhs ->
  let a := numer_ lhs in let b := denom_ lhs in
  let c := numer_ rhs in let d := denom_ rhs in
  (in_range (a * d) -> in_range (b * c) ->
   fits (a * d + b * c) -> fits (b * d) ->
     op_add lhs rhs = Ratio_new (a * d + b * c) (b * d) /\
     computes (op_add lhs rhs) (a * d + b * c) (b * d) /\
     (frac (a * d + b * c) (b * d) == value lhs + value rhs)%Q) /\
  (in_range (a * d) -> in_range (b * c) ->
   fits (a * d - b * c) -> fits (b * d) ->
     op_sub lhs rhs = Ratio_new (a * d - b * c) (b * d) /\
     computes (op_sub lhs rhs) (a * d - b * c) (b * d) /\
     (frac (a * d - b * c) (b * d) == value lhs - value rhs)%Q) /\
  (fits (a * c) -> fits (b * d) ->
     op_mul lhs rhs = Ratio_new (a * c) (b * d) /\
     computes (op_mul lhs rhs) (a * c) (b * d) /\
     (frac (a * c) (b * d) == value lhs * value rhs)%Q) /\
  (c <> 0 -> fits (a * d) -> fits (b * c) ->
     op_div lhs rhs = Ratio_new (a * d) (b * c) /\
     computes (op_div lhs rhs) (a * d) (b * c) /\
     (frac (a * d) (b * c) == value lhs / value rhs)%Q).
Proof.
  intros [_ [Hb _]] [_ [Hd _]] a b c d. fold b in Hb. fold d in Hd.
  assert (Nbd : b * d <> 0) by nia.
  unfold value. fold a b c d.
  split; [|split; [|split]].
  - intros R1 R2 F1 F2.
    rewrite (op_add_returns lhs rhs) by assumption. fold a b c d.
    rewrite Ratio_new_returns by assumption.
    split; [reflexivity|]. split; [now apply computes_lowest|].
    symmetry. apply frac_add; lia.
  - intros R1 R2 F1 F2.
    rewrite (op_sub_returns lhs rhs) by assumption. fold a b c d.
    rewrite Ratio_new_returns by assumption.
    split; [reflexivity|]. split; [now apply computes_lowest|].
    symmetry. apply frac_sub; lia.
  - intros F1 F2.
    rewrite (op_mul_returns lhs rhs) by assumption. fold a b c d.
    rewrite Ratio_new_returns by assumption.
    split; [reflexivity|]. split; [now apply computes_lowest|].
    symmetry. apply frac_mul; lia.
  - intros Hc F1 F2.
    assert (Nbc : b * c <> 0) by nia.
    rewrite (op_div_returns lhs rhs) by assumption. fold a b c d.
    rewrite Ratio_new_returns by assumption.
    split; [reflexivity|]. split; [now apply computes_lowest|].
    symmetry. apply frac_div; lia.
Qed.

Lemma sgn_numer_lowest n d : 0 < d -> Z.sgn (numer_ (lowest n d)) = Z.sgn n.
Proof.
  intros Hd.
  pose proof (lowest_invariant n d ltac:(lia)) as [Hp _].
  pose proof (lowest_same_fraction n d ltac:(lia)) as E.
  unfold same_fraction in E.
  destruct (Z.sgn_spec n) as [[? ->]|[[? ->]|[? ->]]];
    [apply Z.sgn_pos_iff | apply Z.sgn_null_iff | apply Z.sgn_neg_iff]; nia.
Qed.

(** C7.  On valid operands with a nonzero divisor, [operator%] returns
    the truncating remainder of the cross-multiplied numerators over the
    product of the denominators, in lowest terms; the sign of the result
    is the sign of that integral remainder, which is zero or the sign of
    the dividend a*d. *)
Theorem modulo_operator (lhs rhs : Ratio) :
  valid lhs -> valid rhs ->
  let a := numer_ lhs in let b := denom_ lhs in
  let c := numer_ rhs in let d := denom_ rhs in
  c <> 0 ->
  in_range (a * d) -> in_range (b * c) -> in_range ((a * d) ÷ (b * c)) ->
  fits (b * d) ->
  op_mod lhs rhs = Ratio_new (Z.rem (a * d) (b * c)) (b * d) /\
  computes (op_mod lhs rhs) (Z.rem (a * d) (b * c)) (b * d) /\
  (forall r, op_mod lhs rhs = Returns r ->
     Z.sgn (numer_ r) = Z.sgn (Z.rem (a * d) (b * c))) /\
  Z.rem (a * d) (b * c) = a * d - (b * c) * ((a * d) ÷ (b * c)) /\
  (Z.rem (a * d) (b * c) <> 0 ->
     Z.sgn (Z.rem (a * d) (b * c)) = Z.sgn (a * d)).
Proof.
  intros [_ [Hb _]] [_ [Hd _]] a b c d Hc R1 R2 Rq F2.
  fold b in Hb. fold d in Hd.
  assert (Nbd : b * d <> 0) by nia.
  assert (Nbc : b * c <> 0) by nia.
  assert (Fr : fits (Z.rem (a * d) (b * c))) by now apply rem_fits.
  rewrite (op_mod_returns lhs rhs) by assumption. fold a b c d.
  rewrite Ratio_new_returns by assumption.
  split; [reflexivity|]. split; [now apply computes_lowest|].
  split; [|split].
  - intros r [= <-]. apply sgn_numer_lowest. nia.
  - pose proof (Z.quot_rem' (a * d) (b * c)). lia.
  - intros Hnz. now apply Z.rem_sign_nz.
Qed.

(** C8.  The arithmetic identities, with [==] the library's own
    [operator==]: on a valid [a] whose products formed along the way are
    representable, [a + zero() == a], [a * one() == a] and
    [a - a == zero()] evaluate to true, and so does [a / a == one()]
    when [a] is nonzero; the sum and the product are [a] itself. *)
Theorem arithmetic_identities (a : Ratio) :
  valid a ->
  let n := numer_ a in let d := denom_ a in
  (fits n -> in_range (n * d) ->
     op_add a zero = Returns a /\
     (s <- op_add a zero ;; op_eq s a) = Returns true) /\
  (fits n -> in_range (n * d) ->
     op_mul a one = Returns a /\
     (p <- op_mul a one ;; op_eq p a) = Returns true) /\
  (in_range (n * d) -> fits (d * d) ->
     op_sub a a = Returns zero /\
     (x <- op_sub a a ;; op_eq x zero) = Returns true) /\
  (n <> 0 -> fits (n * d) ->
     op_div a a = Returns one /\
     (q <- op_div a a ;; op_eq q one) = Returns true).
Proof.
  intros [[Rn Rd] Hinv] n d. pose proof Hinv as [Hd Hg].
  fold n in Rn. fold d in Rd, Hd.
  assert (Fd : fits d) by (unfold fits, in_range in *; lia).
  assert (R0 : in_range 0) by (apply small_in_range; lia).
  assert (R1 : in_range 1) by (apply small_in_range; lia).
  assert (F1 : fits 1) by (apply small_fits; lia).
  split; [|split; [|split]].
  - intros Fn Rp.
    assert (E : op_add a zero = Returns a).
    { rewrite op_add_returns; simpl; fold n d;
        rewrite ?Z.mul_1_r, ?Z.mul_0_r, ?Z.add_0_r;
        try assumption; try lia.
      f_equal. apply lowest_of_invariant; [assumption | lia | reflexivity]. }
    split; [assumption|]. rewrite E. cbn [bind].
    rewrite op_eq_spec by assumption. now rewrite Z.eqb_refl.
  - intros Fn Rp.
    assert (E : op_mul a one = Returns a).
    { rewrite op_mul_returns; simpl; fold n d;
        rewrite ?Z.mul_1_r; try assumption; try lia.
      f_equal. apply lowest_of_invariant; [assumption | lia | reflexivity]. }
    split; [assumption|]. rewrite E. cbn [bind].
    rewrite op_eq_spec by assumption. now rewrite Z.eqb_refl.
  - intros Rp Fdd.
    assert (E : op_sub a a = Returns zero).
    { rewrite op_sub_returns; fold n d;
        try rewrite (Z.mul_comm d n); rewrite ?Z.sub_diag;
        try assumption; try (apply small_fits; lia); try nia.
      f_equal. apply lowest_of_invariant.
      - split; simpl; [lia | reflexivity].
      - nia.
      - unfold same_fraction, one, zero, Ratio_noreduce. cbn [numer_ denom_].
        subst n d. ring. }
    split; [assumption|]. rewrite E. cbn [bind].
    rewrite op_eq_spec by (simpl; assumption). reflexivity.
  - intros Hn Fp.
    assert (E : op_div a a = Returns one).
    { rewrite op_div_returns; fold n d;
        try rewrite (Z.mul_comm d n); try assumption; try nia.
      f_equal. apply lowest_of_invariant.
      - split; simpl; [lia | reflexivity].
      - nia.
      - unfold same_fraction, one, zero, Ratio_noreduce. cbn [numer_ denom_].
        subst n d. ring. }
    split; [assumption|]. rewrite E. cbn [bind].
    rewrite op_eq_spec by (simpl; assumption). reflexivity.
Qed.

End Operators.

(** ** Rounding family *)

Section Rounding.
Context `{Integral}.

Lemma trunc_returns r :
  in_range (numer_ r) -> 0 < denom_ r ->
  trunc r = Returns (Ratio_from (numer_ r ÷ denom_ r)).
Proof.
  intros Rn Hd. unfold trunc.
  rewrite t_div_in by (try apply quot_in_range; (assumption || lia)).
  reflexivity.
Qed.

Lemma fract_returns r :
  in_range (numer_ r) -> 0 < denom_ r ->
  fract r = Returns (mkRatio (Z.rem (numer_ r) (denom_ r)) (denom_ r)).
Proof.
  intros Rn Hd. unfold fract.
  rewrite t_rem_in by (try apply quot_in_range; (assumption || lia)).
  reflexivity.
Qed.

(** The remainder is coprime to the denominator when the numerator is. *)
Lemma gcd_rem n d : Z.gcd (Z.abs (Z.rem n d)) d = Z.gcd (Z.abs n) d.
Proof.
  rewrite !Z.gcd_abs_l, !(Z.gcd_comm _ d).
  replace (Z.rem n d) with (n + (- (n ÷ d)) * d)
    by (pose proof (Z.quot_rem' n d); lia).
  apply Z.gcd_add_mult_diag_r.
Qed.

Lemma fract_invariant r :
  invariant r -> invariant (mkRatio (Z.rem (numer_ r) (denom_ r)) (denom_ r)).
Proof.
  intros [Hd Hg]. split; simpl; [assumption|]. now rewrite gcd_rem.
Qed.

(** C9.  On a valid ratio [trunc] and [fract] both return: [trunc] is the
    quotient of the truncating integral division over denominator 1,
    [fract] keeps the denominator, and the two exact values add up to
    the value of the ratio. *)
Theorem trunc_plus_fract (r : Ratio) :
  valid r ->
  exists t f,
    trunc r = Returns t /\ fract r = Returns f /\
    (value t + value f == value r)%Q /\
    denom_ f = denom_ r /\
    t = mkRatio (numer_ r ÷ denom_ r) 1 /\
    numer_ r = denom_ r * (numer_ r ÷ denom_ r) + numer_ f /\
    Z.abs (numer_ r ÷ denom_ r) * denom_ r <= Z.abs (numer_ r).
Proof.
  intros [[Rn Rd] [Hd Hg]].
  exists (Ratio_from (numer_ r ÷ denom_ r)),
         (mkRatio (Z.rem (numer_ r) (denom_ r)) (denom_ r)).
  pose proof (Z.quot_rem' (numer_ r) (denom_ r)) as E.
  split; [now apply trunc_returns|]. split; [now apply fract_returns|].
  split; [|split; [reflexivity|split; [reflexivity|split; [exact E|]]]].
  - unfold value. simpl. rewrite frac_add by lia.
    apply frac_eq; [lia | lia |]. rewrite E at 3. ring.
  - destruct (Z.le_gt_cases 0 (numer_ r)).
    + pose proof (Z.rem_bound_pos_pos (numer_ r) (denom_ r) Hd ltac:(lia)).
      pose proof (Z.quot_pos (numer_ r) (denom_ r) ltac:(lia) Hd). nia.
    + pose proof (Z.rem_bound_pos_neg (numer_ r) (denom_ r) Hd ltac:(lia)).
      assert (numer_ r ÷ denom_ r <= 0) by nia. nia.
Qed.

(** Truncating division by a positive divisor, shifted as [floor] and
    [ceil] shift it, gives the floor and the ceiling. *)
Lemma floor_shift n d :
  0 < d -> n < 0 ->
  let k := (n - d + 1) ÷ d in k * d <= n < (k + 1) * d.
Proof.
  intros Hd Hn k. subst k.
  replace (n - d + 1) with (- (d - 1 - n)) by lia.
  rewrite Z.quot_opp_l by lia.
  rewrite Z.quot_div_nonneg by lia.
  pose proof (Z.div_mod (d - 1 - n) d ltac:(lia)) as E.
  pose proof (Z.mod_pos_bound (d - 1 - n) d Hd). nia.
Qed.

Lemma ceil_shift n d :
  0 < d -> 0 <= n ->
  let k := (n + d - 1) ÷ d in (k - 1) * d < n <= k * d.
Proof.
  intros Hd Hn k. subst k.
  rewrite Z.quot_div_nonneg by lia.
  pose proof (Z.div_mod (n + d - 1) d ltac:(lia)) as E.
  pose proof (Z.mod_pos_bound (n + d - 1) d Hd). nia.
Qed.

Lemma quot_nonneg_bounds n d :
  0 < d -> 0 <= n ->
  let k := n ÷ d in k * d <= n < (k + 1) * d.
Proof.
  intros Hd Hn k. subst k.
  pose proof (Z.quot_rem' n d). pose proof (Z.rem_bound_pos_pos n d Hd Hn). nia.
Qed.

Lemma quot_neg_bounds n d :
  0 < d -> n < 0 ->
  let k := n ÷ d in (k - 1) * d < n <= k * d.
Proof.
  intros Hd Hn k. subst k.
  pose proof (Z.quot_rem' n d).
  pose proof (Z.rem_bound_pos_neg n d Hd ltac:(lia)). nia.
Qed.

Lemma floor_nonneg r :
  in_range (numer_ r) -> 0 < denom_ r -> in_range (numer_ r * denom_ r) ->
  0 <= numer_ r -> floor r = trunc r.
Proof.
  intros Rn Hd Rp Hn. unfold floor, trunc.
  rewrite op_lt_zero by assumption. cbn [bind].
  destruct (Z.ltb_spec (numer_ r) 0); [lia | reflexivity].
Qed.

Lemma floor_neg r :
  in_range (numer_ r) -> 0 < denom_ r -> in_range (numer_ r * denom_ r) ->
  numer_ r < 0 -> in_range (numer_ r - denom_ r) ->
  floor r = Returns (Ratio_from ((numer_ r - denom_ r + 1) ÷ denom_ r)).
Proof.
  intros Rn Hd Rp Hn Rs. unfold floor.
  rewrite op_lt_zero by assumption. cbn [bind].
  destruct (Z.ltb_spec (numer_ r) 0); [|lia].
  unfold t_sub, t_add. run_checked.
  assert (R1 : in_range (numer_ r - denom_ r + 1))
    by (unfold in_range in *; lia).
  run_checked.
  rewrite t_div_in by (try apply quot_in_range; (assumption || lia)).
  reflexivity.
Qed.

Lemma ceil_neg r :
  in_range (numer_ r) -> 0 < denom_ r -> in_range (numer_ r * denom_ r) ->
  numer_ r < 0 -> ceil r = trunc r.
Proof.
  intros Rn Hd Rp Hn. unfold ceil, trunc.
  rewrite op_lt_zero by assumption. cbn [bind].
  destruct (Z.ltb_spec (numer_ r) 0); [reflexivity | lia].
Qed.

Lemma ceil_nonneg r :
  in_range (numer_ r) -> 0 < denom_ r -> in_range (numer_ r * denom_ r) ->
  0 <= numer_ r -> in_range (numer_ r + denom_ r) ->
  ceil r = Returns (Ratio_from ((numer_ r + denom_ r - 1) ÷ denom_ r)).
Proof.
  intros Rn Hd Rp Hn Rs. unfold ceil.
  rewrite op_lt_zero by assumption. cbn [bind].
  destruct (Z.ltb_spec (numer_ r) 0); [lia|].
  unfold t_sub, t_add. run_checked.
  assert (R1 : in_range (numer_ r + denom_ r - 1))
    by (unfold in_range in *; lia).
  run_checked.
  rewrite t_div_in by (try apply quot_in_range; (assumption || lia)).
  reflexivity.
Qed.

Lemma Ratio_from_invariant u : invariant (Ratio_from u).
Proof. split; simpl; [lia | apply Z.gcd_1_r]. Qed.

(** X25.  On a valid ratio whose sign test is representable (the
    product numerator * denominator is a value of T): [floor] returns
    [trunc()] on a non-negative value and, when numerator - denominator
    is representable, (numerator - denominator + 1) / denominator on a
    negative one; [ceil] returns, when numerator + denominator is
    representable, (numerator + denominator - 1) / denominator on a
    non-negative value and [trunc()] on a negative one; the integer
    returned is the greatest one not above, respectively the least one
    not below, the exact value.  floor(Ratio(-7,2)) == -4 and
    ceil(Ratio(-7,2)) == -3. *)
Theorem floor_and_ceil :
  (forall r : Ratio,
     valid r -> in_range (numer_ r * denom_ r) ->
     let n := numer_ r in let d := denom_ r in
     (0 <= n ->
        floor r = trunc r /\
        floor r = Returns (Ratio_from (n ÷ d)) /\
        (n ÷ d) * d <= n < (n ÷ d + 1) * d) /\
     (n < 0 -> in_range (n - d) ->
        let k := (n - d + 1) ÷ d in
        floor r = Returns (Ratio_from k) /\ k * d <= n < (k + 1) * d) /\
     (0 <= n -> in_range (n + d) ->
        let k := (n + d - 1) ÷ d in
        ceil r = Returns (Ratio_from k) /\ (k - 1) * d < n <= k * d) /\
     (n < 0 ->
        ceil r = trunc r /\
        ceil r = Returns (Ratio_from (n ÷ d)) /\
        (n ÷ d - 1) * d < n <= (n ÷ d) * d)) /\
  (r <- Ratio_new (-7) 2 ;; f <- floor r ;; op_eq f (Ratio_from (-4)))
    = Returns true /\
  (r <- Ratio_new (-7) 2 ;; c <- ceil r ;; op_eq c (Ratio_from (-3)))
    = Returns true.
Proof.
  split; [|split].
  - intros r [[Rn Rd] [Hd Hg]] Rp n d. fold n in Rn. fold d in Rd, Hd.
    split; [|split; [|split]].
    + intros Hn. rewrite floor_nonneg by assumption.
      rewrite trunc_returns by assumption.
      split; [reflexivity|]. split; [reflexivity|].
      now apply quot_nonneg_bounds.
    + intros Hn Rs k. split; [now apply floor_neg | now apply floor_shift].
    + intros Hn Rs k. split; [now apply ceil_nonneg | now apply ceil_shift].
    + intros Hn. rewrite ceil_neg by assumption.
      rewrite trunc_returns by assumption.
      split; [reflexivity|]. split; [reflexivity|].
      now apply quot_neg_bounds.
  - rewrite Ratio_new_returns by (try apply small_fits; lia).
    change (lowest (-7) 2) with (mkRatio (-7) 2). cbn [bind].
    rewrite floor_neg by (simpl; try apply small_in_range; lia).
    cbn [bind]. rewrite op_eq_spec by (simpl; apply small_in_range; lia).
    reflexivity.
  - rewrite Ratio_new_returns by (try apply small_fits; lia).
    change (lowest (-7) 2) with (mkRatio (-7) 2). cbn [bind].
    rewrite ceil_neg by (simpl; try apply small_in_range; lia).
    rewrite trunc_returns by (simpl; try apply small_in_range; lia).
    cbn [bind]. rewrite op_eq_spec by (simpl; apply small_in_range; lia).
    reflexivity.
Qed.

(** *** The expressions of round *)

(** The absolute fractional part that [round] forms (lines 218 to 221):
    [fract()], negated through [zero - fractional] when it is negative. *)
Lemma round_abs_fraction n d :
  0 < d -> Z.gcd (Z.abs n) d = 1 -> in_range d ->
  let rm := Z.rem n d in
  (if rm <? 0 then op_sub (Ratio_from 0) (mkRatio rm d)
   else Returns (mkRatio rm d)) = Returns (mkRatio (Z.abs rm) d).
Proof.
  intros Hd Hg Rd rm.
  pose proof (Z.rem_bound_abs n d ltac:(lia)) as B.
  pose proof min_T_eq as Hm. pose proof max_T_ge as HM.
  destruct (Z.ltb_spec rm 0) as [Neg|Pos].
  - rewrite op_sub_returns; cbn [Ratio_from Ratio_noreduce numer_ denom_];
      fold rm; rewrite ?Z.mul_0_l, ?Z.mul_1_l;
      try (unfold in_range, fits in *; lia).
    f_equal. apply lowest_of_invariant.
    + split; simpl; [assumption|].
      rewrite Z.abs_idemp. unfold rm. now rewrite gcd_rem.
    + lia.
    + unfold same_fraction. simpl. lia.
  - f_equal. f_equal. lia.
Qed.

(** The parity-aware test (lines 224 to 228) is the comparison of twice
    the remainder with the denominator. *)
Lemma round_half_test m d :
  0 < d -> in_range d -> 0 <= m ->
  (if Z.rem d 2 =? 0 then
     h <- t_div d 2 ;; Returns (m >=? h)
   else
     h <- t_div d 2 ;; h1 <- t_add h 1 ;; Returns (m >=? h1))
  = Returns (d <=? 2 * m).
Proof.
  intros Hd Rd Hm.
  pose proof (Z.quot_rem' d 2) as E.
  pose proof (Z.rem_bound_pos_pos d 2 ltac:(lia) ltac:(lia)) as B.
  pose proof min_T_eq. pose proof max_T_ge.
  rewrite t_div_in by (try apply quot_in_range; (assumption || lia)).
  cbn [bind]. unfold t_add.
  destruct (Z.eqb_spec (Z.rem d 2) 0).
  - f_equal. rewrite Z.geb_leb.
    destruct (Z.leb_spec (d ÷ 2) m), (Z.leb_spec d (2 * m)); (reflexivity || lia).
  - rewrite checked_in by (unfold in_range in *; lia). cbn [bind].
    f_equal. rewrite Z.geb_leb.
    destruct (Z.leb_spec (d ÷ 2 + 1) m), (Z.leb_spec d (2 * m)); (reflexivity || lia).
Qed.

(** Adding or subtracting one on an integer-valued ratio. *)
Lemma integer_plus_one q :
  fits q -> fits (q + 1) ->
  op_add (Ratio_from q) (Ratio_from 1) = Returns (Ratio_from (q + 1)).
Proof.
  intros Fq Fq1.
  rewrite op_add_returns; cbn [Ratio_from Ratio_noreduce numer_ denom_];
    rewrite ?Z.mul_1_l, ?Z.mul_1_r;
    try assumption; try (now apply fits_in_range);
    try (apply small_in_range; lia); try (apply small_fits; lia); try lia.
  f_equal. apply lowest_of_invariant;
    [apply Ratio_from_invariant | lia | unfold same_fraction; simpl; lia].
Qed.

Lemma integer_minus_one q :
  fits q -> fits (q - 1) ->
  op_sub (Ratio_from q) (Ratio_from 1) = Returns (Ratio_from (q - 1)).
Proof.
  intros Fq Fq1.
  rewrite op_sub_returns; cbn [Ratio_from Ratio_noreduce numer_ denom_];
    rewrite ?Z.mul_1_l, ?Z.mul_1_r;
    try assumption; try (now apply fits_in_range);
    try (apply small_in_range; lia); try (apply small_fits; lia); try lia.
  f_equal. apply lowest_of_invariant;
    [apply Ratio_from_invariant | lia | unfold same_fraction; simpl; lia].
Qed.

End Rounding.

(** ** The sign test of floor, ceil and round *)

(** [floor], [ceil] and [round] test the sign of the value with
    [*this < Ratio<T>(0)] or [*this > Ratio<T>(0)], which the comparison
    operators evaluate on the product numerator * denominator.  That
    product overflows on valid ratios whose numerator and denominator are
    both representable; [is_negative()] and [is_positive()], which look at
    the numerator alone, do not. *)

(** C10 (the code departs from the claim).  The comparison against the
    zero ratio does not agree with the sign of the exact value on every
    valid ratio: on the valid 32-bit ratio 32768/65537, whose numerator
    and exact value are positive and whose cross products with 0/1 are
    32768 and 0, [r > Ratio<T>(0)] and [r < Ratio<T>(0)] multiply 32768 by
    65537, which overflows, and [r > Ratio<T>(0)] does not return true. *)
Theorem sign_test_overflows :
  let r := mkRatio 32768 65537 in
  valid (H := int32_t) r /\
  (0 < numer_ r /\ (0 < value r)%Q /\ is_positive r = true) /\
  (in_range (H := int32_t) (numer_ r * denom_ (Ratio_from 0)) /\
   in_range (H := int32_t) (denom_ r * numer_ (Ratio_from 0))) /\
  op_gt (H := int32_t) r (Ratio_from 0) = Undefined /\
  op_gt (H := int32_t) r (Ratio_from 0) <> Returns true /\
  op_lt (H := int32_t) r (Ratio_from 0) = Undefined.
Proof.
  cbv zeta.
  split; [vm_compute; repeat split; discriminate|].
  split; [split; [reflexivity|split; [apply frac_pos; reflexivity|reflexivity]]|].
  split; [vm_compute; repeat split; discriminate|].
  split; [reflexivity|]. split; [discriminate|]. reflexivity.
Qed.

(** C6 (the code departs from the claim).  On the valid 32-bit ratio
    32768/65537 the value is non-negative, numerator + denominator and
    numerator + denominator - 1 are representable and
    (numerator + denominator - 1) / denominator is 1, but [ceil] does not
    return 1: its sign test multiplies 32768 by 65537, which overflows.
    [floor] fails in the same way, where [trunc] returns 0. *)
Theorem ceil_sign_test_overflows :
  let r := mkRatio 32768 65537 in
  valid (H := int32_t) r /\ 0 <= numer_ r /\
  (in_range (H := int32_t) (numer_ r + denom_ r) /\
   in_range (H := int32_t) (numer_ r + denom_ r - 1) /\
   (numer_ r + denom_ r - 1) ÷ denom_ r = 1) /\
  ceil (H := int32_t) r = Undefined /\
  ceil (H := int32_t) r <> Returns (Ratio_from 1) /\
  floor (H := int32_t) r = Undefined /\
  trunc (H := int32_t) r = Returns (Ratio_from 0).
Proof.
  cbv zeta.
  split; [vm_compute; repeat split; discriminate|].
  split; [discriminate|].
  split; [vm_compute; repeat split; discriminate|].
  split; [reflexivity|]. split; [discriminate|].
  split; reflexivity.
Qed.

(** C5 (the code departs from the claim).  [round()] does not compile as
    written.  Its sign test (line 232) is moreover the comparison on the
    product numerator * denominator: on the valid 32-bit ratio
    2147483647/2 the fractional part is exactly one half, the parity-aware
    test holds, and [trunc()] plus one is the representable 1073741824,
    but [*this > Ratio<T>(0)] multiplies 2147483647 by 2, which overflows,
    so the value that rounds half away from zero is not what the body
    computes. *)
Theorem round_sign_test_overflows :
  let r := mkRatio 2147483647 2 in
  valid (H := int32_t) r /\
  fract (H := int32_t) r = Returns (mkRatio 1 2) /\
  (h <- t_div (H := int32_t) 2 2 ;; Returns (1 >=? h)) = Returns true /\
  trunc (H := int32_t) r = Returns (Ratio_from 1073741823) /\
  (t <- trunc (H := int32_t) r ;; op_add t (Ratio_from 1))
    = Returns (Ratio_from 1073741824) /\
  op_gt (H := int32_t) r (Ratio_from 0) = Undefined /\
  op_gt (H := int32_t) r (Ratio_from 0) <> Returns true.
Proof.
  cbv zeta.
  split; [vm_compute; repeat split; discriminate|].
  repeat split; try reflexivity. discriminate.
Qed.

(** ** Conversion to T *)

Lemma pow_bits `{Integral} : 2 ^ bits = 2 * 2 ^ (bits - 1).
Proof.
  pose proof bits_ge_16. replace bits with (Z.succ (bits - 1)) at 1 by lia.
  apply Z.pow_succ_r. lia.
Qed.

Lemma to_T_in_range `{Integral} z : in_range (to_T z).
Proof.
  unfold to_T, in_range. pose proof pow_bits as P.
  assert (P0 : 0 < 2 ^ bits) by (apply Z.pow_pos_nonneg; pose proof bits_ge_16; lia).
  pose proof (Z.mod_pos_bound (z - min_T) (2 ^ bits) P0).
  unfold max_T, min_T in *. lia.
Qed.

Lemma to_T_fixed_iff `{Integral} z : to_T z = z <-> in_range z.
Proof.
  split.
  - intros E. rewrite <- E. apply to_T_in_range.
  - intros R. unfold to_T, in_range in *. pose proof pow_bits as P.
    rewrite Z.mod_small; [lia|]. unfold max_T, min_T in *. lia.
Qed.

(** ** Every value produced keeps the invariant *)

(** Decompose an evaluation that is known to return. *)
Ltac invert_returns :=
  repeat match goal with
    | E : bind _ _ = Returns _ |- _ =>
        apply bind_inv in E; destruct E as (? & ? & E); cbv beta in E
    | E : t_add _ _ = Returns _ |- _ => unfold t_add in E
    | E : t_sub _ _ = Returns _ |- _ => unfold t_sub in E
    | E : t_mul _ _ = Returns _ |- _ => unfold t_mul in E
    | E : t_neg _ = Returns _ |- _ => unfold t_neg in E
    | E : checked _ = Returns _ |- _ =>
        apply checked_inv in E; destruct E as [? ?]
    | E : t_div _ _ = Returns _ |- _ =>
        apply t_div_inv in E; destruct E as (? & ? & ?)
    | E : t_rem _ _ = Returns _ |- _ =>
        apply t_rem_inv in E; destruct E as (? & ? & ?)
    | E : Returns _ = Returns _ |- _ => injection E as E
    end.

Section InvariantPreserved.
Context `{Integral}.


Lemma Ratio_from_valid u : in_range u -> valid (Ratio_from u).
Proof.
intros Ru. split; [|apply Ratio_from_invariant].
split; simpl; [assumption | apply small_in_range; lia].
Qed.


Lemma op_neg_valid a r : valid a -> op_neg a = Returns r -> valid r.
Proof.
intros [[Rn Rd] [Hd Hg]] E. unfold op_neg, numer, denom in E.
invert_returns. subst. split; split; simpl; try assumption.
now rewrite Z.abs_opp.
Qed.







Lemma fract_valid a r : valid a -> fract a = Returns r -> valid r.
Proof.
intros [[Rn Rd] Hinv] E. unfold fract in E. invert_returns. subst.
split; [|now apply fract_invariant].
pose proof Hinv as [Hd _].
split; simpl; [|assumption].
apply fits_in_range, rem_fits; [assumption | lia].
Qed.







End InvariantPreserved.


(** * Further properties of the code *)

(** ** gcd, reduce and the normalizing constructor *)

Section NormalForm.
Context `{Integral}.

(** X1.  On two values of T neither of which is the most negative one,
    [gcd] returns the non-negative greatest common divisor: it divides
    both arguments, every common divisor divides it, the order of the
    arguments does not matter, and gcd(a, 0) is |a|.  When an argument is
    the most negative value its negation overflows and the call is
    undefined. *)
Theorem gcd_greatest_common_divisor (a b : Z) :
  in_range a -> in_range b ->
  (fits a -> fits b ->
     exists g, gcd a b = Returns g /\ 0 <= g /\ (g | a) /\ (g | b) /\
       (forall c, (c | a) -> (c | b) -> (c | g)) /\
       gcd b a = Returns g /\ (b = 0 -> g = Z.abs a)) /\
  (~ (fits a /\ fits b) -> gcd a b = Undefined).
Proof.
  intros Ra Rb. split.
  - intros Fa Fb. exists (Z.gcd a b).
    rewrite !gcd_spec by assumption.
    destruct (fitsb_spec a); [|contradiction].
    destruct (fitsb_spec b); [|contradiction]. simpl.
    split; [reflexivity|]. split; [apply Z.gcd_nonneg|].
    split; [apply Z.gcd_divide_l|]. split; [apply Z.gcd_divide_r|].
    split; [intros c; apply Z.gcd_greatest|].
    split; [now rewrite Z.gcd_comm|].
    intros ->. apply Z.gcd_0_r.
  - intros N. rewrite gcd_spec by assumption.
    destruct (fitsb_spec a), (fitsb_spec b); simpl; tauto.
Qed.

(** X2.  [reduce] is idempotent: whatever it returns on a pair of values
    of T with a nonzero denominator is a valid value that a second
    [reduce] (or [reduced()]) returns unchanged. *)
Theorem reduce_idempotent (this r : Ratio) :
  representable this -> denom_ this <> 0 ->
  reduce this = Returns r ->
  valid r /\ reduce r = Returns r /\ reduced r = Returns r.
Proof.
  destruct this as [n d]. intros [Rn Rd] Hd E. simpl in Rn, Rd, Hd.
  rewrite reduce_spec in E by assumption.
  destruct (fitsb_spec n) as [Fn|]; [|discriminate].
  destruct (fitsb_spec d) as [Fd|]; [|discriminate].
  simpl in E. injection E as <-.
  pose proof (lowest_valid n d Fn Fd Hd) as V.
  pose proof (lowest_fits n d Fn Fd Hd) as [Ln Ld].
  pose proof V as [[Rn' Rd'] Hinv]. pose proof Hinv as [Hp _].
  assert (R : reduce (lowest n d) = Returns (lowest n d)).
  { destruct (lowest n d) as [n' d'] eqn:L. simpl in *.
    rewrite reduce_spec by (assumption || lia).
    destruct (fitsb_spec n'); [|contradiction].
    destruct (fitsb_spec d'); [|contradiction]. simpl.
    f_equal. apply lowest_of_invariant; [assumption | lia | reflexivity]. }
  split; [assumption|]. split; exact R.
Qed.

(** X3.  [reduce] does not reject a zero denominator: on n/0 with n
    nonzero (and not the most negative value) it returns 1/0 or -1/0, the
    sign of n over a denominator that is still zero; on 0/0 it divides by
    the gcd 0, which is undefined. *)
Theorem reduce_zero_denominator (n : Z) :
  in_range n ->
  (n <> 0 -> fits n -> reduce (mkRatio n 0) = Returns (mkRatio (Z.sgn n) 0)) /\
  (n = 0 -> reduce (mkRatio n 0) = Undefined).
Proof.
  intros Rn.
  assert (F0 : fits 0) by (apply small_fits; lia).
  assert (R0 : in_range 0) by now apply fits_in_range.
  split.
  - intros Hn Fn. unfold reduce. cbn [numer_ denom_].
    rewrite gcd_spec by assumption.
    destruct (fitsb_spec n); [|contradiction].
    destruct (fitsb_spec 0); [|contradiction]. cbn [andb bind].
    rewrite Z.gcd_0_r.
    assert (Q : n ÷ Z.abs n = Z.sgn n).
    { rewrite <- (Z.abs_sgn n) at 1. rewrite Z.mul_comm. apply Z.quot_mul. lia. }
    rewrite !t_div_in; rewrite ?Q, ?Z.quot_0_l; try lia;
      try (apply small_in_range; lia).
    reflexivity.
  - intros ->. unfold reduce. cbn [numer_ denom_].
    rewrite gcd_spec by assumption.
    destruct (fitsb_spec 0); [|contradiction]. reflexivity.
Qed.

(** X4.  The constructor depends on the fraction only: two pairs (of
    values that are not the most negative one, with nonzero denominators)
    construct the same value exactly when they denote the same fraction,
    n1*d2 = n2*d1.  So the sign may sit on either member and a common
    factor does not matter. *)
Theorem Ratio_new_canonical (n1 d1 n2 d2 : Z) :
  fits n1 -> fits d1 -> fits n2 -> fits d2 -> d1 <> 0 -> d2 <> 0 ->
  (n1 * d2 = n2 * d1 <-> Ratio_new n1 d1 = Ratio_new n2 d2).
Proof.
  intros F1 G1 F2 G2 H1 H2.
  rewrite !Ratio_new_returns by assumption.
  pose proof (lowest_invariant n1 d1 H1) as I1.
  pose proof (lowest_invariant n2 d2 H2) as I2.
  pose proof (lowest_same_fraction n1 d1 H1) as S1.
  pose proof (lowest_same_fraction n2 d2 H2) as S2.
  unfold same_fraction in S1, S2.
  split.
  - intros E. f_equal. apply invariant_unique; try assumption.
    apply Z.mul_reg_r with (d1 * d2); [nia|].
    transitivity (numer_ (lowest n1 d1) * d1 * (denom_ (lowest n2 d2) * d2)); [ring|].
    rewrite S1.
    transitivity (numer_ (lowest n2 d2) * d2 * (denom_ (lowest n1 d1) * d1)); [|ring].
    rewrite S2.
    transitivity (n1 * d2 * (denom_ (lowest n1 d1) * denom_ (lowest n2 d2))); [ring|].
    rewrite E. ring.
  - intros [= E]. rewrite <- E in S2. destruct I1 as [P1 _].
    apply Z.mul_reg_r with (denom_ (lowest n1 d1)); [lia|].
    transitivity (n1 * denom_ (lowest n1 d1) * d2); [ring|].
    rewrite <- S1.
    transitivity (n2 * denom_ (lowest n1 d1) * d1); [|ring].
    rewrite <- S2. ring.
Qed.

(** X5.  Rebuilding a valid value from its accessors gives the value
    back: [Ratio<T>(r.numer(), r.denom())] returns [r], unless the
    numerator is the most negative value of T, on which the constructor
    is undefined. *)
Theorem Ratio_new_of_accessors (r : Ratio) :
  valid r ->
  (fits (numer r) -> Ratio_new (numer r) (denom r) = Returns r) /\
  (~ fits (numer r) -> Ratio_new (numer r) (denom r) = Undefined).
Proof.
  intros [[Rn Rd] Hinv]. pose proof Hinv as [Hd _]. unfold numer, denom.
  rewrite Ratio_new_spec by assumption.
  destruct (Z.eqb_spec (denom_ r) 0); [lia|].
  assert (Fd : fits (denom_ r)) by (unfold fits, in_range in *; lia).
  destruct (fitsb_spec (numer_ r)), (fitsb_spec (denom_ r));
    try contradiction; simpl; split; try tauto.
  intros _. f_equal. apply lowest_of_invariant; [assumption | lia | reflexivity].
Qed.

End NormalForm.

(** ** Integers, signs and absolute value *)

Lemma frac_opp n d : d <> 0 -> (frac (- n) d == - frac n d)%Q.
Proof.
  intros Hd. unfold frac. rewrite inject_Z_opp.
  pose proof (inject_Z_nonzero d Hd). field. assumption.
Qed.

Lemma frac_abs n d : 0 < d -> (Qabs (frac n d) == frac (Z.abs n) d)%Q.
Proof.
  intros Hd. rewrite !frac_Qmake by assumption. reflexivity.
Qed.

Lemma frac_lt n1 n2 d : 0 < d -> ((frac n1 d < frac n2 d)%Q <-> n1 < n2).
Proof.
  intros Hd. rewrite !frac_Qmake by assumption.
  unfold Qlt. cbn [Qnum Qden]. rewrite Z2Pos.id by assumption. nia.
Qed.

Section IntegersAndSigns.
Context `{Integral}.

(** X6.  [to_integer] undoes the conversion from an integer, returns the
    numerator of [trunc()] on every valid value, and on a valid value with
    [is_integer()] converting the result back gives the value itself. *)
Theorem to_integer_round_trip :
  (forall u, in_range u -> to_integer (Ratio_from u) = Returns u) /\
  (forall r, valid r ->
     to_integer r = Returns (numer_ r ÷ denom_ r) /\
     trunc r = Returns (Ratio_from (numer_ r ÷ denom_ r)) /\
     (is_integer r = true -> Ratio_from (numer_ r ÷ denom_ r) = r)).
Proof.
  split.
  - intros u Ru. unfold to_integer. cbn [Ratio_from Ratio_noreduce numer_ denom_].
    rewrite t_div_in; rewrite ?Z.quot_1_r; (assumption || lia || reflexivity).
  - intros r [[Rn Rd] [Hd Hg]].
    split; [|split].
    + unfold to_integer.
      now rewrite t_div_in by (try apply quot_in_range; (assumption || lia)).
    + now apply trunc_returns.
    + unfold is_integer. rewrite Z.eqb_eq. intros E.
      destruct r as [n d]. simpl in *. subst d.
      now rewrite Z.quot_1_r.
Qed.

(** On a valid value the denominator divides the numerator only when it
    is 1. *)
Lemma rem_zero_iff_integer r :
  invariant r -> (Z.rem (numer_ r) (denom_ r) = 0 <-> denom_ r = 1).
Proof.
  intros [Hd Hg]. split.
  - intros E. apply Z.rem_divide in E; [|lia].
    rewrite Z.gcd_abs_l, Z.gcd_comm in Hg.
    apply Z.divide_gcd_iff in E; lia.
  - intros ->. apply Z.rem_1_r.
Qed.

(** X7.  On a valid value [is_integer()] holds exactly when the
    denominator divides the numerator, exactly when [fract()] returns
    zero, and exactly when [trunc()] returns the value itself. *)
Theorem is_integer_iff (r : Ratio) :
  valid r ->
  (is_integer r = true <-> (denom_ r | numer_ r)) /\
  (is_integer r = true <-> fract r = Returns zero) /\
  (is_integer r = true <-> trunc r = Returns r).
Proof.
  intros [[Rn Rd] Hinv]. pose proof Hinv as [Hd Hg].
  pose proof (rem_zero_iff_integer r Hinv) as Zr.
  unfold is_integer. rewrite Z.eqb_eq.
  rewrite fract_returns, trunc_returns by assumption.
  destruct r as [n d]. simpl in *.
  split; [|split].
  - rewrite <- Zr. apply Z.rem_divide. lia.
  - split.
    + intros E. rewrite (proj2 Zr E). now subst d.
    + intros [= _ E]. exact E.
  - split.
    + intros ->. now rewrite Z.quot_1_r.
    + intros [= _ E]. now symmetry.
Qed.

Lemma signum_sgn r : signum r = Z.sgn (numer_ r).
Proof.
  unfold signum, is_zero, is_positive. rewrite Z.gtb_ltb.
  destruct (Z.eqb_spec (numer_ r) 0) as [->|]; [reflexivity|].
  destruct (Z.ltb_spec 0 (numer_ r)).
  - symmetry. now apply Z.sgn_pos.
  - symmetry. apply Z.sgn_neg. lia.
Qed.

Lemma abs_returns r :
  in_range (numer_ r) -> fits (numer_ r) ->
  abs r = Returns (mkRatio (Z.abs (numer_ r)) (denom_ r)).
Proof.
  intros Rn Fn. unfold abs, is_positive, is_zero, op_neg, t_neg, numer, denom.
  rewrite Z.gtb_ltb.
  destruct (Z.ltb_spec 0 (numer_ r)); simpl.
  - destruct r as [n d]. simpl in *. do 2 f_equal. lia.
  - destruct (Z.eqb_spec (numer_ r) 0).
    + destruct r as [n d]. simpl in *. do 2 f_equal. lia.
    + rewrite checked_in by (unfold fits, in_range in *; pose proof min_T_eq; lia).
      cbn [bind]. unfold Ratio_noreduce. do 2 f_equal. lia.
Qed.

(** X8.  [signum()] is the sign of the numerator, which on a valid value
    is the sign of the exact value, and the value is its sign times its
    absolute value: [Ratio<T>(r.signum()) * r.abs()] returns [r] (for a
    numerator that is not the most negative value of T). *)
Theorem signum_times_abs (r : Ratio) :
  valid r -> fits (numer_ r) ->
  signum r = Z.sgn (numer_ r) /\
  ((0 < value r)%Q <-> signum r = 1) /\
  ((value r < 0)%Q <-> signum r = -1) /\
  ((value r == 0)%Q <-> signum r = 0) /\
  (a <- abs r ;; op_mul (Ratio_from (signum r)) a) = Returns r.
Proof.
  intros [[Rn Rd] Hinv] Fn. pose proof Hinv as [Hd Hg].
  rewrite signum_sgn. unfold value.
  split; [reflexivity|].
  split; [rewrite frac_pos by assumption; symmetry; apply Z.sgn_pos_iff|].
  split; [rewrite frac_neg by assumption; symmetry; apply Z.sgn_neg_iff|].
  split.
  { change 0%Q with (frac 0 1). rewrite frac_eq by lia.
    rewrite Z.sgn_null_iff. lia. }
  rewrite abs_returns by assumption. cbn [bind].
  assert (SA : Z.sgn (numer_ r) * Z.abs (numer_ r) = numer_ r)
    by (rewrite Z.mul_comm; apply Z.abs_sgn).
  rewrite op_mul_returns; cbn [Ratio_from Ratio_noreduce numer_ denom_];
    rewrite ?Z.mul_1_l, ?SA;
    try assumption; try lia; try (unfold fits, in_range in *; lia).
  f_equal. apply lowest_of_invariant; [assumption | lia | reflexivity].
Qed.

(** X9.  On a valid value whose numerator is not the most negative value
    of T, [abs()] returns the valid value with the absolute numerator and
    the same denominator; its exact value is the absolute value, it is
    not negative, and [abs()] leaves it unchanged.  On the most negative
    numerator the negation overflows and [abs()] is undefined. *)
Theorem abs_is_absolute_value (r : Ratio) :
  valid r ->
  (fits (numer_ r) ->
     exists a, abs r = Returns a /\ valid a /\
       numer_ a = Z.abs (numer_ r) /\ denom_ a = denom_ r /\
       (value a == Qabs (value r))%Q /\
       is_negative a = false /\ abs a = Returns a) /\
  (~ fits (numer_ r) -> abs r = Undefined).
Proof.
  intros [[Rn Rd] Hinv]. pose proof Hinv as [Hd Hg].
  pose proof min_T_eq as Hm. pose proof max_T_ge as HM.
  split.
  - intros Fn. exists (mkRatio (Z.abs (numer_ r)) (denom_ r)).
    split; [now apply abs_returns|].
    split.
    { split; split; simpl; try assumption.
      - unfold fits, in_range in *. lia.
      - now rewrite Z.abs_idemp. }
    split; [reflexivity|]. split; [reflexivity|].
    split; [unfold value; simpl; symmetry; now apply frac_abs|].
    split.
    + unfold is_negative. simpl. apply Z.ltb_ge. apply Z.abs_nonneg.
    + rewrite abs_returns; simpl; rewrite ?Z.abs_idemp;
        try reflexivity; unfold fits, in_range in *; lia.
  - intros N. assert (E : numer_ r = min_T) by (unfold fits, in_range in *; lia).
    unfold abs, is_positive, is_zero, op_neg, t_neg, numer.
    rewrite Z.gtb_ltb.
    destruct (Z.ltb_spec 0 (numer_ r)); [lia|].
    destruct (Z.eqb_spec (numer_ r) 0); [lia|]. simpl.
    rewrite checked_out by (unfold in_range; lia). reflexivity.
Qed.

(** X10.  Unary minus on a valid value whose numerator is not the most
    negative value of T returns a valid value with the opposite exact
    value, negating twice gives the value back, and the value plus its
    negation is zero when the products of the sum are representable.  On
    the most negative numerator unary minus is undefined. *)
Theorem negation_involutive (r : Ratio) :
  valid r ->
  (fits (numer_ r) ->
     exists m, op_neg r = Returns m /\ valid m /\
       op_neg m = Returns r /\ (value m == - value r)%Q /\
       (fits (numer_ r * denom_ r) -> fits (denom_ r * denom_ r) ->
          op_add r m = Returns zero)) /\
  (~ fits (numer_ r) -> op_neg r = Undefined).
Proof.
  intros [[Rn Rd] Hinv]. pose proof Hinv as [Hd Hg].
  pose proof min_T_eq as Hm. pose proof max_T_ge as HM.
  split.
  - intros Fn. exists (mkRatio (- numer_ r) (denom_ r)).
    assert (E : op_neg r = Returns (mkRatio (- numer_ r) (denom_ r))).
    { unfold op_neg, t_neg, numer, denom.
      now rewrite checked_in by (unfold fits, in_range in *; lia). }
    split; [exact E|].
    split; [now apply (op_neg_valid r)|].
    split.
    { unfold op_neg, t_neg, numer, denom. cbn [numer_ denom_].
      rewrite checked_in by (rewrite Z.opp_involutive; assumption).
      cbn [bind]. rewrite Z.opp_involutive. now destruct r. }
    split; [unfold value; simpl; apply frac_opp; lia|].
    intros Fp Fdd.
    rewrite op_add_returns; cbn [numer_ denom_];
      try (replace (numer_ r * denom_ r + denom_ r * - numer_ r) with 0 by ring);
      try assumption; try (apply small_fits; lia);
      try (unfold fits, in_range in *; nia).
    f_equal. apply lowest_of_invariant.
    + split; simpl; [lia | reflexivity].
    + nia.
    + unfold same_fraction, zero, Ratio_noreduce. cbn [numer_ denom_]. ring.
  - intros N. assert (E : numer_ r = min_T) by (unfold fits, in_range in *; lia).
    unfold op_neg, t_neg, numer.
    rewrite checked_out by (unfold in_range; lia). reflexivity.
Qed.

End IntegersAndSigns.

(** ** Comparison operators, as the code computes them *)

Section ComparisonFacts.
Context `{Integral}.

(** X11.  When the product numerator * denominator of each operand is
    representable, the six comparison operators all return, exactly one
    of [<], [==], [>] is true, [<=] is [<] or [==], [>=] is [>] or [==],
    and [!=] is the negation of [==]. *)
Theorem comparison_trichotomy (a b : Ratio) :
  in_range (numer_ a * denom_ a) -> in_range (numer_ b * denom_ b) ->
  exists lt eq gt : bool,
    op_lt a b = Returns lt /\ op_eq a b = Returns eq /\ op_gt a b = Returns gt /\
    ((lt = true /\ eq = false /\ gt = false) \/
     (lt = false /\ eq = true /\ gt = false) \/
     (lt = false /\ eq = false /\ gt = true)) /\
    op_le a b = Returns (lt || eq) /\
    op_ge a b = Returns (gt || eq) /\
    op_ne a b = Returns (negb eq).
Proof.
  intros Ra Rb.
  unfold op_le, op_ge, op_ne, op_lt.
  rewrite op_eq_spec, (op_gt_spec a b), (op_gt_spec b a) by assumption.
  cbn [bind]. rewrite !Z.gtb_ltb.
  do 3 eexists. do 3 (split; [reflexivity|]).
  destruct (Z.ltb_spec (numer_ a * denom_ a) (numer_ b * denom_ b)),
           (Z.ltb_spec (numer_ b * denom_ b) (numer_ a * denom_ a)),
           (Z.eqb_spec (numer_ a * denom_ a) (numer_ b * denom_ b));
    try lia; simpl; tauto.
Qed.

(** X12.  On two valid values with the same denominator (integers in
    particular) the comparison operators decide the order of the exact
    values, when the product numerator * denominator of each operand is
    representable. *)
Theorem comparison_exact_on_common_denominator (a b : Ratio) :
  valid a -> valid b -> denom_ a = denom_ b ->
  in_range (numer_ a * denom_ a) -> in_range (numer_ b * denom_ b) ->
  (op_gt a b = Returns true <-> (value b < value a)%Q) /\
  (op_lt a b = Returns true <-> (value a < value b)%Q) /\
  (op_eq a b = Returns true <-> (value a == value b)%Q) /\
  (op_le a b = Returns true <-> (value a <= value b)%Q) /\
  (op_ge a b = Returns true <-> (value b <= value a)%Q).
Proof.
  intros [_ [Hd _]] _ E Ra Rb.
  unfold op_le, op_ge, op_lt.
  rewrite op_eq_spec, (op_gt_spec a b), (op_gt_spec b a) by assumption.
  cbn [bind]. rewrite !Z.gtb_ltb. unfold value. rewrite <- E in *.
  rewrite !Qle_lteq, !frac_lt by assumption.
  rewrite !frac_eq by lia.
  destruct (Z.ltb_spec (numer_ a * denom_ a) (numer_ b * denom_ a)),
           (Z.ltb_spec (numer_ b * denom_ a) (numer_ a * denom_ a)),
           (Z.eqb_spec (numer_ a * denom_ a) (numer_ b * denom_ a));
    try lia; simpl; repeat split; intros; try discriminate; try reflexivity;
    try nia.
Qed.

(** X13.  [operator==] has no false negatives: two valid values with
    the same exact value are the same pair, so on them [==] returns true
    and [!=], [<] and [>] return false when numerator * denominator is
    representable; when it is not, the product overflows and all four are
    undefined. *)
Theorem equal_values_compare_equal (a b : Ratio) :
  valid a -> valid b -> (value a == value b)%Q ->
  a = b /\
  (in_range (numer_ a * denom_ a) ->
     op_eq a b = Returns true /\ op_ne a b = Returns false /\
     op_lt a b = Returns false /\ op_gt a b = Returns false) /\
  (~ in_range (numer_ a * denom_ a) ->
     op_eq a b = Undefined /\ op_ne a b = Undefined /\
     op_lt a b = Undefined /\ op_gt a b = Undefined).
Proof.
  intros [_ Ia] [_ Ib] E.
  pose proof Ia as [Da _]. pose proof Ib as [Db _].
  assert (C : numer_ a * denom_ b = numer_ b * denom_ a)
    by (apply (proj1 (frac_eq (numer_ a) (denom_ a) (numer_ b) (denom_ b)
                        ltac:(lia) ltac:(lia))); exact E).
  assert (a = b) by now apply invariant_unique. subst b.
  split; [reflexivity|]. split.
  - intros Ra. unfold op_ne, op_lt.
    rewrite op_eq_spec, op_gt_spec by assumption.
    cbn [bind]. rewrite Z.eqb_refl, Z.gtb_ltb, Z.ltb_irrefl. auto.
  - intros Na. unfold op_ne, op_lt, op_eq, op_gt, t_mul, numer, denom.
    rewrite checked_out by assumption. cbn [bind]. auto.
Qed.

End ComparisonFacts.

(** ** Algebra of the operators *)

Section Algebra.
Context `{Integral}.

(** X14.  Addition, multiplication and equality do not depend on the
    order of their operands, on any operands and with the same outcome
    also when the evaluation overflows or ends in [std::terminate]. *)
Theorem operators_commute (a b : Ratio) :
  op_add a b = op_add b a /\
  op_mul a b = op_mul b a /\
  op_eq a b = op_eq b a /\
  op_ne a b = op_ne b a.
Proof.
  assert (Eq : op_eq a b = op_eq b a).
  { unfold op_eq, t_mul, numer, denom, checked.
    destruct (in_rangeb (numer_ a * denom_ a)),
             (in_rangeb (numer_ b * denom_ b)); cbn [bind]; try reflexivity.
    now rewrite Z.eqb_sym. }
  split; [|split; [|split]].
  - unfold op_add, t_mul, t_add, numer, denom.
    rewrite (Z.mul_comm (numer_ b) (denom_ a)), (Z.mul_comm (denom_ b) (numer_ a)),
            (Z.mul_comm (denom_ b) (denom_ a)).
    unfold checked.
    destruct (in_rangeb (numer_ a * denom_ b)),
             (in_rangeb (denom_ a * numer_ b)); cbn [bind]; try reflexivity.
    now rewrite Z.add_comm.
  - unfold op_mul, t_mul, numer, denom.
    now rewrite (Z.mul_comm (numer_ b) (numer_ a)), (Z.mul_comm (denom_ b) (denom_ a)).
  - exact Eq.
  - unfold op_ne. now rewrite Eq.
Qed.

(** X15.  Zero annihilates: on every valid [a], [a * zero()] and
    [zero() * a] return zero with no overflow condition, and
    [zero() / a] returns zero when [a] is nonzero and its numerator is
    not the most negative value of T. *)
Theorem zero_annihilates (a : Ratio) :
  valid a ->
  op_mul a zero = Returns zero /\
  op_mul zero a = Returns zero /\
  (numer_ a <> 0 -> fits (numer_ a) -> op_div zero a = Returns zero).
Proof.
  intros [[Rn Rd] [Hd Hg]].
  pose proof min_T_eq as Hm. pose proof max_T_ge as HM.
  assert (Iz : invariant zero) by (split; simpl; [lia | reflexivity]).
  assert (Fd : fits (denom_ a)) by (unfold fits, in_range in *; lia).
  split; [|split].
  - rewrite op_mul_returns; cbn [zero Ratio_noreduce numer_ denom_];
      rewrite ?Z.mul_0_r, ?Z.mul_1_r;
      try assumption; try lia; try (apply small_fits; lia).
    f_equal. apply lowest_of_invariant; [assumption | lia |].
    unfold same_fraction. simpl. lia.
  - rewrite op_mul_returns; cbn [zero Ratio_noreduce numer_ denom_];
      rewrite ?Z.mul_0_l, ?Z.mul_1_l;
      try assumption; try lia; try (apply small_fits; lia).
    f_equal. apply lowest_of_invariant; [assumption | lia |].
    unfold same_fraction. simpl. lia.
  - intros Hn Fn.
    rewrite op_div_returns; cbn [zero Ratio_noreduce numer_ denom_];
      rewrite ?Z.mul_0_l, ?Z.mul_1_l;
      try assumption; try lia; try (apply small_fits; lia).
    f_equal. apply lowest_of_invariant; [assumption | lia |].
    unfold same_fraction. simpl. lia.
Qed.

(** X16.  [operator%] by a ratio with numerator zero throws nothing: it
    evaluates the integral [%] with divisor b*0 = 0, which is undefined
    in T, before any constructor runs (here for a representable first
    product; in particular for the valid zero). *)
Theorem modulo_by_zero_undefined (lhs rhs : Ratio) :
  representable lhs -> numer_ rhs = 0 ->
  in_range (numer_ lhs * denom_ rhs) ->
  op_mod lhs rhs = Undefined /\
  op_mod lhs rhs <> Throws DivideByZeroException.
Proof.
  intros _ Hz Rp.
  assert (E : op_mod lhs rhs = Undefined).
  { unfold op_mod, t_mul, numer, denom. rewrite Hz, Z.mul_0_r.
    rewrite !checked_in by (assumption || (apply small_in_range; lia)).
    cbn [bind]. reflexivity. }
  split; [exact E|]. rewrite E. discriminate.
Qed.

Lemma frac_scale q n d : d <> 0 -> (inject_Z q * frac n d == frac (q * n) d)%Q.
Proof.
  intros Hd. unfold frac. rewrite inject_Z_mult.
  pose proof (inject_Z_nonzero d Hd). field. assumption.
Qed.

(** X17.  The law of the remainder: on valid operands with a nonzero
    divisor (and representable products) the value of [lhs % rhs] is
    [lhs - q * rhs] for the integer q = (a*d) / (b*c) truncated toward
    zero, and it is smaller in magnitude than the divisor. *)
Theorem modulo_law (lhs rhs : Ratio) :
  valid lhs -> valid rhs ->
  let a := numer_ lhs in let b := denom_ lhs in
  let c := numer_ rhs in let d := denom_ rhs in
  c <> 0 ->
  in_range (a * d) -> in_range (b * c) -> in_range ((a * d) ÷ (b * c)) ->
  fits (b * d) ->
  exists m, op_mod lhs rhs = Returns m /\ valid m /\
    (value lhs == inject_Z ((a * d) ÷ (b * c)) * value rhs + value m)%Q /\
    (Qabs (value m) < Qabs (value rhs))%Q.
Proof.
  intros [_ [Hb _]] [_ [Hd _]] a b c d Hc R1 R2 Rq F2.
  fold b in Hb. fold d in Hd.
  assert (Nbd : b * d <> 0) by nia.
  assert (Nbc : b * c <> 0) by nia.
  assert (Fr : fits (Z.rem (a * d) (b * c))) by now apply rem_fits.
  pose proof (Z.quot_rem' (a * d) (b * c)) as E.
  pose proof (Z.rem_bound_abs (a * d) (b * c) Nbc) as B.
  set (q := (a * d) ÷ (b * c)) in *. set (rm := Z.rem (a * d) (b * c)) in *.
  exists (lowest rm (b * d)).
  split; [now apply (op_mod_returns lhs rhs)|].
  split; [now apply lowest_valid|].
  split.
  - rewrite value_lowest by assumption. unfold value. fold a b c d.
    rewrite frac_scale, frac_add by lia.
    apply frac_eq; [lia | nia |].
    replace rm with (a * d - b * c * q) by lia. ring.
  - rewrite value_lowest by assumption. unfold value. fold c d.
    rewrite !frac_abs by nia.
    rewrite !frac_Qmake by nia. unfold Qlt. cbn [Qnum Qden].
    rewrite !Z2Pos.id by nia.
    rewrite Z.abs_mul in B. rewrite (Z.abs_eq b) in B by lia. nia.
Qed.

End Algebra.

(** ** Increment, decrement and the rounding family *)

Section RoundingFacts.
Context `{Integral}.





(** X19.  On the ratio of an integer u, [trunc] returns it and
    [fract] returns zero.  [floor] returns it too, except on the most
    negative value of T, where it computes u - 1 and is undefined; [ceil]
    returns it except on the largest value of T, where it computes u + 1
    and is undefined. *)
Theorem rounding_on_integers (u : Z) :
  in_range u ->
  trunc (Ratio_from u) = Returns (Ratio_from u) /\
  fract (Ratio_from u) = Returns zero /\
  (min_T < u -> floor (Ratio_from u) = Returns (Ratio_from u)) /\
  (u = min_T -> floor (Ratio_from u) = Undefined) /\
  (u < max_T -> ceil (Ratio_from u) = Returns (Ratio_from u)) /\
  (u = max_T -> ceil (Ratio_from u) = Undefined).
Proof.
  intros Ru.
  pose proof min_T_eq as Hm. pose proof max_T_ge as HM.
  pose proof (Ratio_from_valid u Ru) as V.
  assert (Rp : in_range (numer_ (Ratio_from u) * denom_ (Ratio_from u)))
    by (simpl; now rewrite Z.mul_1_r).
  assert (T : trunc (Ratio_from u) = Returns (Ratio_from u)).
  { rewrite trunc_returns; simpl; try assumption; try lia.
    now rewrite Z.quot_1_r. }
  split; [exact T|].
  split.
  { rewrite fract_returns; simpl; try assumption; try lia.
    now rewrite Z.rem_1_r. }
  split; [|split; [|split]].
  - intros Lo. destruct (Z.le_gt_cases 0 u).
    + now rewrite floor_nonneg by (simpl; (assumption || lia)).
    + rewrite floor_neg; simpl; try assumption; try lia;
        try (unfold in_range in *; lia).
      replace (u - 1 + 1) with u by lia. now rewrite Z.quot_1_r.
  - intros ->. unfold floor. rewrite op_lt_zero by (simpl; (assumption || lia)).
    cbn [Ratio_from Ratio_noreduce numer_ denom_ bind].
    destruct (Z.ltb_spec min_T 0); [|lia]. unfold t_sub.
    rewrite checked_out by (unfold in_range; lia). reflexivity.
  - intros Hi. destruct (Z.le_gt_cases 0 u).
    + rewrite ceil_nonneg; simpl; try assumption; try lia;
        try (unfold in_range in *; lia).
      replace (u + 1 - 1) with u by lia. now rewrite Z.quot_1_r.
    + now rewrite ceil_neg by (simpl; (assumption || lia)).
  - intros ->. unfold ceil. rewrite op_lt_zero by (simpl; (assumption || lia)).
    cbn [Ratio_from Ratio_noreduce numer_ denom_ bind].
    destruct (Z.ltb_spec max_T 0); [lia|]. unfold t_add.
    rewrite checked_out by (unfold in_range; lia). reflexivity.
Qed.

(** The floor and the ceiling of n/d are equal when d divides n and one
    apart otherwise. *)
Lemma floor_ceil_gap n d f c :
  0 < d -> f * d <= n < (f + 1) * d -> (c - 1) * d < n <= c * d ->
  (c = f /\ n = f * d) \/ (c = f + 1 /\ f * d < n).
Proof. intros Hd Hf Hc. nia. Qed.

(** X20.  On a valid value floor, trunc and ceil are ordered: floor is
    at most trunc, which is at most ceil; trunc is the floor or the
    ceiling (the one nearer to zero); and the ceiling is the floor on an
    integer and one above it otherwise.  (When the sign test and the
    shifted numerator that [floor] or [ceil] forms are representable.) *)
Theorem rounding_order (r : Ratio) :
  valid r -> in_range (numer_ r * denom_ r) ->
  (numer_ r < 0 -> in_range (numer_ r - denom_ r)) ->
  (0 <= numer_ r -> in_range (numer_ r + denom_ r)) ->
  exists f t c,
    floor r = Returns (Ratio_from f) /\ trunc r = Returns (Ratio_from t) /\
    ceil r = Returns (Ratio_from c) /\
    f <= t <= c /\
    (0 <= numer_ r -> t = f) /\ (numer_ r < 0 -> t = c) /\
    c - f = (if is_integer r then 0 else 1).
Proof.
  intros V Rp Lo Hi. pose proof V as [[Rn Rd] Hinv]. pose proof Hinv as [Hd Hg].
  pose proof (rem_zero_iff_integer r Hinv) as Zr.
  pose proof (Z.quot_rem' (numer_ r) (denom_ r)) as E.
  rewrite trunc_returns by assumption.
  unfold is_integer.
  destruct (Z.le_gt_cases 0 (numer_ r)) as [Pos|Neg].
  - rewrite floor_nonneg, trunc_returns, ceil_nonneg by auto.
    pose proof (quot_nonneg_bounds _ _ Hd Pos) as Bf.
    pose proof (ceil_shift _ _ Hd Pos) as Bc. cbv zeta in Bf, Bc.
    do 3 eexists. do 3 (split; [reflexivity|]).
    destruct (floor_ceil_gap _ _ _ _ Hd Bf Bc) as [[Ec En]|[Ec En]]; rewrite Ec.
    + assert (D1 : denom_ r = 1) by (apply Zr; lia).
      destruct (Z.eqb_spec (denom_ r) 1); lia.
    + assert (D1 : denom_ r <> 1) by (intros D; apply Zr in D; lia).
      destruct (Z.eqb_spec (denom_ r) 1); [contradiction|]. lia.
  - rewrite floor_neg, ceil_neg, trunc_returns by (auto; lia).
    pose proof (floor_shift _ _ Hd Neg) as Bf.
    pose proof (quot_neg_bounds _ _ Hd Neg) as Bc. cbv zeta in Bf, Bc.
    do 3 eexists. do 3 (split; [reflexivity|]).
    destruct (floor_ceil_gap _ _ _ _ Hd Bf Bc) as [[Ec En]|[Ec En]]; rewrite Ec.
    + assert (D1 : denom_ r = 1) by (apply Zr; lia).
      destruct (Z.eqb_spec (denom_ r) 1); lia.
    + assert (D1 : denom_ r <> 1) by (intros D; apply Zr in D; lia).
      destruct (Z.eqb_spec (denom_ r) 1); [contradiction|]. lia.
Qed.

(** X21.  On a valid value [fract] returns a valid proper fraction:
    its numerator is smaller in magnitude than the denominator and is
    zero or has the sign of the value, so its exact value lies strictly
    between -1 and 1; [fract] leaves it unchanged and [trunc] sends it
    to zero. *)
Theorem fract_is_proper (r : Ratio) :
  valid r ->
  exists f, fract r = Returns f /\ valid f /\
    Z.abs (numer_ f) < denom_ f /\
    (numer_ f = 0 \/ Z.sgn (numer_ f) = Z.sgn (numer_ r)) /\
    (Qabs (value f) < 1)%Q /\
    fract f = Returns f /\ trunc f = Returns zero.
Proof.
  intros V. pose proof V as [[Rn Rd] Hinv]. pose proof Hinv as [Hd Hg].
  pose proof (Z.rem_bound_abs (numer_ r) (denom_ r) ltac:(lia)) as B.
  rewrite (Z.abs_eq (denom_ r)) in B by lia.
  set (rm := Z.rem (numer_ r) (denom_ r)) in *.
  exists (mkRatio rm (denom_ r)).
  assert (F : fract r = Returns (mkRatio rm (denom_ r))) by now apply fract_returns.
  pose proof (fract_valid r _ V F) as Vf. pose proof Vf as [[Rn' Rd'] _].
  split; [exact F|]. split; [exact Vf|]. cbn [numer_ denom_].
  split; [exact B|].
  split.
  { destruct (Z.eq_dec rm 0); [now left | right].
    apply Z.rem_sign_nz; [lia | assumption]. }
  split.
  { unfold value. cbn [numer_ denom_]. rewrite frac_abs by assumption.
    rewrite frac_Qmake by assumption. unfold Qlt. cbn [Qnum Qden].
    rewrite Z2Pos.id by assumption. lia. }
  split.
  - rewrite fract_returns by assumption. cbn [numer_ denom_].
    do 2 f_equal. apply Z.rem_small_iff; lia.
  - rewrite trunc_returns by assumption. cbn [numer_ denom_].
    replace (rm ÷ denom_ r) with 0; [reflexivity|].
    symmetry. apply Z.quot_small_iff; lia.
Qed.

End RoundingFacts.

(** ** The difference as a comparison *)


Section Difference.
Context `{Integral}.


End Difference.

(** ** pow10_cap *)

Section Pow10Facts.
Context `{Integral}.

Lemma pow10_cap_loop_spec unsigned_bits pow10 x :
  0 <= unsigned_bits -> 0 <= x -> in_range x -> 0 <= pow10 ->
  exists k, 1 <= k /\ x < 2 * 10 ^ k /\ (k = 1 \/ 2 * 10 ^ (k - 1) <= x) /\
    (pow10 + k < 2 ^ unsigned_bits -> pow10_cap_loop unsigned_bits pow10 x = Returns (pow10 + k)).
Proof.
  funelim (pow10_cap_loop unsigned_bits pow10 x); intros Hub Hx Rx Hc;
    repeat match goal with
           | S : sigmaI _ _ _ = _ |- _ => clear S
           end;
    match goal with
    | E : t_div x 10 = _ |- _ =>
        rewrite t_div_in in E by (try apply quot_in_range; (assumption || lia));
        try discriminate; injection E as E
    end.
  - (* x / 10 > 1: one more round *)
    pose proof (Z.quot_rem' x 10) as Q.
    pose proof (Z.rem_bound_pos_pos x 10 ltac:(lia) Hx) as B.
    assert (P : 0 < 2 ^ unsigned_bits) by (apply Z.pow_pos_nonneg; lia).
    assert (I0 : 0 <= unsigned_incr unsigned_bits pow10)
      by (unfold unsigned_incr; apply Z.mod_pos_bound; assumption).
    match goal with
    | IH : _ -> _ -> _ -> _ -> exists _, _ |- _ =>
        destruct IH as (k & K1 & Ku & Kl & Kr);
          [assumption | lia | pose proof min_T_eq; unfold in_range in *; lia
           | assumption |]
    end.
    exists (k + 1).
    assert (P10 : 10 ^ (k + 1) = 10 * 10 ^ k) by (rewrite Z.pow_add_r; lia).
    replace (k + 1 - 1) with k by lia.
    split; [lia|]. split; [lia|].
    split.
    + right. destruct Kl as [->|Kl]; [change (10 ^ 1) with 10; lia|].
      replace k with (Z.succ (k - 1)) by lia.
      rewrite Z.pow_succ_r by lia. lia.
    + intros W.
      assert (Ei : unsigned_incr unsigned_bits pow10 = pow10 + 1)
        by (unfold unsigned_incr; apply Z.mod_small; lia).
      rewrite Ei in Kr |- *. rewrite Kr by lia. f_equal. lia.
  - (* x / 10 <= 1: the loop ends *)
    pose proof (Z.quot_rem' x 10) as Q.
    pose proof (Z.rem_bound_pos_pos x 10 ltac:(lia) Hx) as B.
    exists 1. split; [lia|]. split; [change (10 ^ 1) with 10; lia|].
    split; [now left|].
    intros W. f_equal. unfold unsigned_incr. apply Z.mod_small. lia.
Qed.

(** X23.  [pow10_cap(x)] returns the number of rounds of dividing |x| by
    ten until at most 1 is left: the least k >= 1 with |x| < 2 * 10^k.
    (For an [unsigned] counter wide enough to count the bits of T, which
    it is when it has 16 bits and T at most 65536.)  On the most negative
    value of T the negation overflows and the call is undefined. *)
Theorem pow10_cap_bound (unsigned_bits x : Z) :
  bits <= 2 ^ unsigned_bits -> in_range x ->
  (fits x ->
     exists k, pow10_cap unsigned_bits x = Returns k /\ 1 <= k /\
       Z.abs x < 2 * 10 ^ k /\ (k = 1 \/ 2 * 10 ^ (k - 1) <= Z.abs x)) /\
  (~ fits x -> pow10_cap unsigned_bits x = Undefined).
Proof.
  intros W Rx.
  pose proof min_T_eq as Hm. pose proof max_T_ge as HM. pose proof bits_ge_16 as B16.
  assert (Hub : 0 <= unsigned_bits).
  { destruct (Z.le_gt_cases 0 unsigned_bits); [assumption|].
    rewrite Z.pow_neg_r in W by assumption. lia. }
  split.
  - intros Fx.
    assert (E : (if x >? 0 then Returns x else t_neg x) = Returns (Z.abs x)).
    { rewrite Z.gtb_ltb. unfold t_neg. destruct (Z.ltb_spec 0 x).
      - f_equal. lia.
      - rewrite checked_in by (unfold fits, in_range in *; lia). f_equal. lia. }
    unfold pow10_cap. rewrite E. cbn [bind].
    destruct (pow10_cap_loop_spec unsigned_bits 0 (Z.abs x) Hub)
      as (k & K1 & Ku & Kl & Kr);
      [lia | unfold fits, in_range in *; lia | lia |].
    exists k. split; [|auto]. rewrite Kr; [reflexivity|].
    (* the counter does not wrap: k < bits *)
    assert (k < bits); [|lia].
    destruct Kl as [->|Kl]; [lia|].
    assert (M : Z.abs x <= max_T) by (unfold fits in *; lia).
    assert (P2 : 2 ^ (k - 1) <= 10 ^ (k - 1)) by (apply Z.pow_le_mono_l; lia).
    assert (L : 2 ^ (k - 1) < 2 ^ (bits - 1)) by (unfold max_T in M; lia).
    apply Z.pow_lt_mono_r_iff in L; lia.
  - intros N. assert (x = min_T) by (unfold fits, in_range in *; lia). subst x.
    unfold pow10_cap, t_neg. rewrite Z.gtb_ltb.
    destruct (Z.ltb_spec 0 min_T); [lia|].
    rewrite checked_out by (unfold in_range; lia). reflexivity.
Qed.

End Pow10Facts.

(** ** Conversion between integral types *)

(** X24.  Converting a ratio to another integral type always yields
    members of the target type, and leaves the pair unchanged exactly when
    both members are values of the target type.  So a conversion to a type
    at least as wide is lossless: it keeps the pair and its validity, and
    converting back returns the original. *)
Theorem conversion_lossless (From To : Integral) (r : Ratio) :
  representable (H := To) (Ratio_convert (To := To) r) /\
  (Ratio_convert (To := To) r = r <-> representable (H := To) r) /\
  (@bits From <= @bits To -> representable (H := From) r ->
     Ratio_convert (To := To) r = r /\
     Ratio_convert (To := From) (Ratio_convert (To := To) r) = r /\
     (valid (H := From) r -> valid (H := To) (Ratio_convert (To := To) r))).
Proof.
  assert (Fix : Ratio_convert (To := To) r = r <-> representable (H := To) r).
  { unfold Ratio_convert, Ratio_noreduce, representable. destruct r as [n d].
    cbn [numer_ denom_]. rewrite <- !to_T_fixed_iff. split.
    - intros [= E1 E2]. auto.
    - intros [E1 E2]. now rewrite E1, E2. }
  split; [split; apply to_T_in_range|]. split; [exact Fix|].
  intros W [Rn Rd].
  assert (M : @max_T From <= @max_T To).
  { unfold max_T.
    assert (2 ^ (@bits From - 1) <= 2 ^ (@bits To - 1))
      by (apply Z.pow_le_mono_r; lia).
    lia. }
  assert (RT : representable (H := To) r).
  { pose proof (min_T_eq (H := From)). pose proof (min_T_eq (H := To)).
    unfold representable, in_range in *. lia. }
  assert (E : Ratio_convert (To := To) r = r) by now apply Fix.
  split; [exact E|]. rewrite E.
  split.
  - unfold Ratio_convert, Ratio_noreduce. destruct r as [n d]. simpl in *.
    f_equal; now apply to_T_fixed_iff.
  - intros [_ I]. split; assumption.
Qed.

(** * The properties at [std::int32_t] *)

(** Range side conditions on concrete 32-bit values. *)
Ltac int32_range :=
  first [ reflexivity
        | vm_compute; repeat split; discriminate
        | vm_compute; intros E; discriminate E
        | vm_compute; intros E; apply E; reflexivity ].


Lemma compare_with_zero_is_sign_witness :
  op_gt (H := int32_t) (mkRatio (-7) 2) (Ratio_from 0) = Returns false /\
  op_lt (H := int32_t) (mkRatio (-7) 2) (Ratio_from 0) = Returns true.
Proof.
  exact (proj1 (compare_with_zero_is_sign (H := int32_t) (mkRatio (-7) 2)
                  ltac:(int32_range) ltac:(int32_range))).
Defined.

Lemma binary_operators_exact_witness :
  op_add (H := int32_t) (mkRatio 1 2) (mkRatio 1 3) = Ratio_new (H := int32_t) 5 6 /\
  op_sub (H := int32_t) (mkRatio 1 2) (mkRatio 1 3) = Ratio_new (H := int32_t) 1 6 /\
  op_mul (H := int32_t) (mkRatio 1 2) (mkRatio 1 3) = Ratio_new (H := int32_t) 1 6 /\
  op_div (H := int32_t) (mkRatio 1 2) (mkRatio 1 3) = Ratio_new (H := int32_t) 3 2.
Proof.
  destruct (binary_operators_exact (H := int32_t) (mkRatio 1 2) (mkRatio 1 3)
              ltac:(int32_range) ltac:(int32_range))
    as (Hadd & Hsub & Hmul & Hdiv).
  split; [apply Hadd; int32_range|].
  split; [apply Hsub; int32_range|].
  split; [apply Hmul; int32_range|].
  apply Hdiv; int32_range.
Defined.

Lemma modulo_operator_witness :
  op_mod (H := int32_t) (mkRatio (-7) 2) (mkRatio 1 3) =
  Ratio_new (H := int32_t) (Z.rem (-21) 2) 6.
Proof.
  exact (proj1 (modulo_operator (H := int32_t) (mkRatio (-7) 2) (mkRatio 1 3)
                  ltac:(int32_range) ltac:(int32_range) ltac:(int32_range)
                  ltac:(int32_range) ltac:(int32_range) ltac:(int32_range)
                  ltac:(int32_range))).
Defined.

Lemma arithmetic_identities_witness :
  op_add (H := int32_t) (mkRatio 5 3) zero = Returns (mkRatio 5 3) /\
  op_mul (H := int32_t) (mkRatio 5 3) one = Returns (mkRatio 5 3) /\
  op_sub (H := int32_t) (mkRatio 5 3) (mkRatio 5 3) = Returns zero /\
  op_div (H := int32_t) (mkRatio 5 3) (mkRatio 5 3) = Returns one.
Proof.
  destruct (arithmetic_identities (H := int32_t) (mkRatio 5 3) ltac:(int32_range))
    as (Hadd & Hmul & Hsub & Hdiv).
  split; [apply Hadd; int32_range|].
  split; [apply Hmul; int32_range|].
  split; [apply Hsub; int32_range|].
  apply Hdiv; int32_range.
Defined.

Lemma trunc_plus_fract_witness :
  exists t f,
    trunc (H := int32_t) (mkRatio (-7) 2) = Returns t /\
    fract (H := int32_t) (mkRatio (-7) 2) = Returns f /\
    (value t + value f == value (mkRatio (-7) 2))%Q.
Proof.
  destruct (trunc_plus_fract (H := int32_t) (mkRatio (-7) 2) ltac:(int32_range))
    as (t & f & Ht & Hf & Hv & _).
  exists t, f. auto.
Defined.

Lemma floor_and_ceil_witness :
  floor (H := int32_t) (mkRatio (-7) 2) = Returns (Ratio_from (-4)) /\
  ceil (H := int32_t) (mkRatio 7 2) = Returns (Ratio_from 4) /\
  floor (H := int32_t) (mkRatio 7 2) = Returns (Ratio_from 3) /\
  ceil (H := int32_t) (mkRatio (-7) 2) = Returns (Ratio_from (-3)).
Proof.
  destruct (proj1 (floor_and_ceil (H := int32_t)) (mkRatio (-7) 2)
              ltac:(int32_range) ltac:(int32_range)) as (_ & Hfn & _ & Hcn).
  destruct (proj1 (floor_and_ceil (H := int32_t)) (mkRatio 7 2)
              ltac:(int32_range) ltac:(int32_range)) as (Hfp & _ & Hcp & _).
  split; [apply Hfn; int32_range|].
  split; [apply Hcp; int32_range|].
  split; [apply Hfp; int32_range|].
  apply Hcn; int32_range.
Defined.

(** ** The further properties at [std::int32_t] *)

Lemma gcd_greatest_common_divisor_witness :
  exists g, gcd (H := int32_t) 12 (-18) = Returns g /\ (g | 12) /\ (g | -18).
Proof.
  destruct (proj1 (gcd_greatest_common_divisor (H := int32_t) 12 (-18)
                     ltac:(int32_range) ltac:(int32_range))
              ltac:(int32_range) ltac:(int32_range))
    as (g & E & _ & Da & Db & _).
  exists g. auto.
Defined.

Lemma reduce_idempotent_witness :
  reduce (H := int32_t) (mkRatio (-5) 2) = Returns (mkRatio (-5) 2).
Proof.
  exact (proj1 (proj2 (reduce_idempotent (H := int32_t) (mkRatio 10 (-4))
                         (mkRatio (-5) 2)
                         ltac:(int32_range) ltac:(int32_range) ltac:(reflexivity)))).
Defined.

Lemma reduce_zero_denominator_witness :
  reduce (H := int32_t) (mkRatio (-6) 0) = Returns (mkRatio (-1) 0).
Proof.
  exact (proj1 (reduce_zero_denominator (H := int32_t) (-6) ltac:(int32_range))
           ltac:(int32_range) ltac:(int32_range)).
Defined.

Lemma Ratio_new_canonical_witness :
  Ratio_new (H := int32_t) 6 (-4) = Ratio_new (H := int32_t) (-9) 6.
Proof.
  exact (proj1 (Ratio_new_canonical (H := int32_t) 6 (-4) (-9) 6
                  ltac:(int32_range) ltac:(int32_range) ltac:(int32_range)
                  ltac:(int32_range) ltac:(int32_range) ltac:(int32_range))
           ltac:(reflexivity)).
Defined.

Lemma Ratio_new_of_accessors_witness :
  Ratio_new (H := int32_t) (-3) 2 = Returns (mkRatio (-3) 2).
Proof.
  exact (proj1 (Ratio_new_of_accessors (H := int32_t) (mkRatio (-3) 2)
                  ltac:(int32_range)) ltac:(int32_range)).
Defined.

Lemma to_integer_round_trip_witness :
  to_integer (H := int32_t) (Ratio_from (-7)) = Returns (-7) /\
  to_integer (H := int32_t) (mkRatio (-7) 2) = Returns (-3).
Proof.
  destruct (to_integer_round_trip (H := int32_t)) as [Hu Hr].
  split; [apply (Hu (-7)); int32_range|].
  exact (proj1 (Hr (mkRatio (-7) 2) ltac:(int32_range))).
Defined.

Lemma is_integer_iff_witness :
  fract (H := int32_t) (mkRatio 5 1) = Returns zero.
Proof.
  exact (proj1 (proj1 (proj2 (is_integer_iff (H := int32_t) (mkRatio 5 1)
                                ltac:(int32_range)))) ltac:(reflexivity)).
Defined.

Lemma signum_times_abs_witness :
  (a <- abs (H := int32_t) (mkRatio (-7) 2) ;; op_mul (H := int32_t) (Ratio_from (-1)) a)
  = Returns (mkRatio (-7) 2).
Proof.
  exact (proj2 (proj2 (proj2 (proj2
           (signum_times_abs (H := int32_t) (mkRatio (-7) 2)
              ltac:(int32_range) ltac:(int32_range)))))).
Defined.

Lemma abs_is_absolute_value_witness :
  exists a, abs (H := int32_t) (mkRatio (-7) 2) = Returns a /\ numer_ a = 7.
Proof.
  destruct (proj1 (abs_is_absolute_value (H := int32_t) (mkRatio (-7) 2)
                     ltac:(int32_range)) ltac:(int32_range))
    as (a & E & _ & Hn & _).
  exists a. auto.
Defined.

Lemma negation_involutive_witness :
  exists m, op_neg (H := int32_t) (mkRatio 7 2) = Returns m /\
            op_neg (H := int32_t) m = Returns (mkRatio 7 2).
Proof.
  destruct (proj1 (negation_involutive (H := int32_t) (mkRatio 7 2)
                     ltac:(int32_range)) ltac:(int32_range))
    as (m & E & _ & B & _).
  exists m. auto.
Defined.

Lemma comparison_trichotomy_witness :
  exists lt eq gt : bool,
    op_lt (H := int32_t) (mkRatio 1 2) (mkRatio 1 3) = Returns lt /\
    op_eq (H := int32_t) (mkRatio 1 2) (mkRatio 1 3) = Returns eq /\
    op_gt (H := int32_t) (mkRatio 1 2) (mkRatio 1 3) = Returns gt.
Proof.
  destruct (comparison_trichotomy (H := int32_t) (mkRatio 1 2) (mkRatio 1 3)
              ltac:(int32_range) ltac:(int32_range))
    as (lt & eq & gt & L & E & G & _).
  exists lt, eq, gt. auto.
Defined.

Lemma comparison_exact_on_common_denominator_witness :
  op_gt (H := int32_t) (mkRatio 5 3) (mkRatio 4 3) = Returns true <->
  (value (mkRatio 4 3) < value (mkRatio 5 3))%Q.
Proof.
  exact (proj1 (comparison_exact_on_common_denominator (H := int32_t)
                  (mkRatio 5 3) (mkRatio 4 3)
                  ltac:(int32_range) ltac:(int32_range) ltac:(reflexivity)
                  ltac:(int32_range) ltac:(int32_range))).
Defined.

Lemma equal_values_compare_equal_witness :
  op_eq (H := int32_t) (mkRatio 5 3) (mkRatio 5 3) = Returns true /\
  op_eq (H := int32_t) (mkRatio 32768 65537) (mkRatio 32768 65537) = Undefined.
Proof.
  split.
  - exact (proj1 (proj1 (proj2 (equal_values_compare_equal (H := int32_t)
                           (mkRatio 5 3) (mkRatio 5 3)
                           ltac:(int32_range) ltac:(int32_range) ltac:(reflexivity)))
                   ltac:(int32_range))).
  - exact (proj1 (proj2 (proj2 (equal_values_compare_equal (H := int32_t)
                           (mkRatio 32768 65537) (mkRatio 32768 65537)
                           ltac:(int32_range) ltac:(int32_range) ltac:(reflexivity)))
                   ltac:(int32_range))).
Defined.

Lemma zero_annihilates_witness :
  op_mul (H := int32_t) (mkRatio 5 3) zero = Returns zero /\
  op_div (H := int32_t) zero (mkRatio 5 3) = Returns zero.
Proof.
  destruct (zero_annihilates (H := int32_t) (mkRatio 5 3) ltac:(int32_range))
    as (M & _ & D).
  split; [exact M | apply D; int32_range].
Defined.

Lemma modulo_by_zero_undefined_witness :
  op_mod (H := int32_t) (mkRatio 5 3) zero = Undefined.
Proof.
  exact (proj1 (modulo_by_zero_undefined (H := int32_t) (mkRatio 5 3) zero
                  ltac:(int32_range) ltac:(reflexivity) ltac:(int32_range))).
Defined.

Lemma modulo_law_witness :
  exists m, op_mod (H := int32_t) (mkRatio (-7) 2) (mkRatio 1 3) = Returns m /\
    (Qabs (value m) < Qabs (value (mkRatio 1 3)))%Q.
Proof.
  destruct (modulo_law (H := int32_t) (mkRatio (-7) 2) (mkRatio 1 3)
              ltac:(int32_range) ltac:(int32_range) ltac:(int32_range)
              ltac:(int32_range) ltac:(int32_range) ltac:(int32_range)
              ltac:(int32_range))
    as (m & E & _ & _ & B).
  exists m. auto.
Defined.


Lemma rounding_on_integers_witness :
  floor (H := int32_t) (Ratio_from (-4)) = Returns (Ratio_from (-4)) /\
  ceil (H := int32_t) (Ratio_from 2147483647) = Undefined.
Proof.
  destruct (rounding_on_integers (H := int32_t) (-4) ltac:(int32_range))
    as (_ & _ & F & _).
  destruct (rounding_on_integers (H := int32_t) 2147483647 ltac:(int32_range))
    as (_ & _ & _ & _ & _ & C).
  split; [apply F; int32_range | apply C; reflexivity].
Defined.

Lemma rounding_order_witness :
  exists f t c,
    floor (H := int32_t) (mkRatio (-7) 2) = Returns (Ratio_from f) /\
    trunc (H := int32_t) (mkRatio (-7) 2) = Returns (Ratio_from t) /\
    ceil (H := int32_t) (mkRatio (-7) 2) = Returns (Ratio_from c) /\
    f <= t <= c.
Proof.
  destruct (rounding_order (H := int32_t) (mkRatio (-7) 2)
              ltac:(int32_range) ltac:(int32_range)
              ltac:(int32_range) ltac:(int32_range))
    as (f & t & c & F & T & C & O & _).
  exists f, t, c. auto.
Defined.

Lemma fract_is_proper_witness :
  exists f, fract (H := int32_t) (mkRatio (-7) 2) = Returns f /\
            trunc (H := int32_t) f = Returns zero.
Proof.
  destruct (fract_is_proper (H := int32_t) (mkRatio (-7) 2) ltac:(int32_range))
    as (f & E & _ & _ & _ & _ & _ & T).
  exists f. auto.
Defined.


Lemma pow10_cap_bound_witness :
  exists k, pow10_cap (H := int32_t) 32 (-200) = Returns k /\ 200 < 2 * 10 ^ k.
Proof.
  destruct (proj1 (pow10_cap_bound (H := int32_t) 32 (-200)
                     ltac:(int32_range) ltac:(int32_range)) ltac:(int32_range))
    as (k & E & _ & U & _).
  exists k. auto.
Defined.

Lemma conversion_lossless_witness :
  Ratio_convert (To := int64_t) (mkRatio (-7) 2) = mkRatio (-7) 2 /\
  Ratio_convert (To := int32_t) (Ratio_convert (To := int64_t) (mkRatio (-7) 2))
  = mkRatio (-7) 2.
Proof.
  destruct (proj2 (proj2 (conversion_lossless int32_t int64_t (mkRatio (-7) 2)))
              ltac:(int32_range) ltac:(int32_range)) as (E & B & _).
  split; [exact E | exact B].
Defined.

(** ** Concrete evaluations *)

Example gcd_12_18 : gcd (H := int32_t) 12 (-18) = Returns 6.
Proof. reflexivity. Qed.

Example Ratio_new_10_m4 :
  Ratio_new (H := int32_t) 10 (-4) = Returns (mkRatio (-5) 2).
Proof. reflexivity. Qed.

(** [Ratio(10,3) + 1] is 13/3, and [(Ratio(7,1) / Ratio(7,3)) + 1] is 4/1. *)
Example ten_thirds_plus_one :
  op_add (H := int32_t) (mkRatio 10 3) (Ratio_from 1) = Returns (mkRatio 13 3).
Proof. reflexivity. Qed.

Example seven_by_seven_thirds_plus_one :
  (q <- op_div (H := int32_t) (mkRatio 7 1) (mkRatio 7 3) ;;
   op_add q (Ratio_from 1)) = Returns (mkRatio 4 1).
Proof. reflexivity. Qed.

Example trunc_m7_2 :
  trunc (H := int32_t) (mkRatio (-7) 2) = Returns (mkRatio (-3) 1).
Proof. reflexivity. Qed.

Example pow10_cap_values :
  pow10_cap (H := int32_t) 32 0 = Returns 1 /\
  pow10_cap (H := int32_t) 32 19 = Returns 1 /\
  pow10_cap (H := int32_t) 32 20 = Returns 2 /\
  pow10_cap (H := int32_t) 32 (-200) = Returns 3.
Proof. repeat split; reflexivity. Qed.

Example half_equals_two :
  op_eq (H := int32_t) (mkRatio 1 2) (mkRatio 2 1) = Returns true.
Proof. reflexivity. Qed.

(** [operator%] by the zero ratio divides by zero in T before any
    constructor runs. *)
Example mod_by_zero :
  op_mod (H := int32_t) (mkRatio 1 2) (mkRatio 0 1) = Undefined.
Proof. reflexivity. Qed.

(** A valid 32-bit ratio whose sign test overflows. *)
Example sign_test_overflow :
  op_gt (H := int32_t) (mkRatio 32768 65537) (Ratio_from 0) = Undefined.
Proof. reflexivity. Qed.
